(** * Redpath query planner (ecclesia/lib/redfish/dellicius/engine/internal)

    A shallow embedding of [query_planner.cc]: the step parser
    [GetNodeAndPredicate], the per-subquery cursor [SubqueryHandle], and the
    deduplicating walker [RunRecursive] / [Dispatch] / [QualifyEachSubquery],
    together with the properties the design document states about them. *)

From stdpp Require Import gmap strings list fin_maps.
From Stdlib Require Import ZArith Ascii String.

Local Open Scope string_scope.
Local Open Scope list_scope.

(** ** Outcomes

    The C++ code reads through a vector iterator without a bounds check.  A
    read outside the vector has no defined behaviour, so every read of the
    embedding is checked and an out-of-range read ends the computation with
    [InvalidRead].  [OutOfFuel] is the third outcome of the walker, whose
    mutual recursion is tied by a depth counter; [RunRecursive_fuel_enough]
    shows that it never arises from [Run]. *)

Inductive outcome (A : Type) : Type :=
| Done (a : A)
| InvalidRead
| OutOfFuel.

Arguments Done {A} a.
Arguments InvalidRead {A}.
Arguments OutOfFuel {A}.

#[global] Instance outcome_ret : MRet outcome := fun A a => Done a.
#[global] Instance outcome_bind : MBind outcome := fun A B f o =>
  match o with
  | Done a => f a
  | InvalidRead => InvalidRead
  | OutOfFuel => OutOfFuel
  end.
#[global] Instance outcome_fmap : FMap outcome := fun A B f o =>
  match o with
  | Done a => Done (f a)
  | InvalidRead => InvalidRead
  | OutOfFuel => OutOfFuel
  end.

(** The body of a range-based [for] loop that threads a state. *)
Fixpoint for_each {A S : Type} (body : A → S → outcome S) (xs : list A) (s : S)
  : outcome S :=
  match xs with
  | [] => Done s
  | x :: xs' => s' ← body x s; for_each body xs' s'
  end.

(** ** Strings: [size_t] positions and [absl::string_view] operations *)

Module StringView.

Local Open Scope Z_scope.

(** [size_t] is 64 bits wide; arithmetic on it wraps around. *)
Definition size_max : Z := 2 ^ 64.
Definition wrap (z : Z) : Z := z mod size_max.

(** [std::string::npos], the all-ones [size_t]. *)
Definition npos : Z := size_max - 1.

Definition size (s : string) : Z := Z.of_nat (String.length s).

Fixpoint find_from (c : ascii) (s : string) (pos : Z) : Z :=
  match s with
  | EmptyString => npos
  | String a s' => if decide (a = c) then pos else find_from c s' (pos + 1)
  end.

(** [sv.find_first_of(c)]: position of the first [c], or [npos]. *)
Definition find_first_of (s : string) (c : ascii) : Z := find_from c s 0.

(** [sv.substr(pos, n)] for [pos <= size]: the result has
    [min(n, size - pos)] characters. *)
Definition substr (s : string) (pos n : Z) : string :=
  let rlen := Z.min n (size s - pos) in
  String.substring (Z.to_nat pos) (Z.to_nat rlen) s.

Fixpoint split_all (sep : ascii) (s : string) : list string :=
  match s with
  | EmptyString => [EmptyString]
  | String a s' =>
      if decide (a = sep) then EmptyString :: split_all sep s'
      else match split_all sep s' with
           | piece :: rest => String a piece :: rest
           | [] => [String a EmptyString]
           end
  end.

(** [absl::StrSplit(s, sep, absl::SkipEmpty())]. *)
Definition StrSplit_SkipEmpty (s : string) (sep : ascii) : list string :=
  List.filter (fun piece => negb (String.eqb piece EmptyString))
              (split_all sep s).

End StringView.

(** ** Step parser *)

Definition kPredicateSelectAll : string := "*".

(** [GetNodeAndPredicate]: [None] stands for the [InvalidArgumentError]
    status.  The length handed to [substr] is computed in [size_t]. *)
Definition GetNodeAndPredicate (step : string) : option (string * string) :=
  let predicate_start := StringView.find_first_of step "["%char in
  let predicate_end := StringView.find_first_of step "]"%char in
  if decide (predicate_start = StringView.npos ∨ predicate_end = StringView.npos)
  then None
  else
    let predicate_expr :=
      StringView.substr step (StringView.wrap (predicate_start + 1)%Z)
        (StringView.wrap (predicate_end - predicate_start - 1)%Z) in
    let node_name := StringView.substr step 0%Z predicate_start in
    Some (node_name, predicate_expr).

(** ** Query model *)

(** Modelled from the spec: the messages [DelliciusQuery] and
    [DelliciusQuery::Subquery] are declared in [query.proto], which is not
    among the sources; the planner reads [query_id], [subquery],
    [subquery_id] and [redpath], and hands [properties] to the normalizer. *)
Inductive Primitive : Type :=
| BOOLEAN | INT64 | STRING | DOUBLE | DATE_TIME_OFFSET.

Record Property : Type := {
  property : string;
  name : option string;
  type : Primitive;
}.

Record Subquery : Type := {
  subquery_id : string;
  redpath : string;
  properties : list Property;
}.

Record DelliciusQuery : Type := {
  query_id : string;
  subquery : list Subquery;
}.

Inductive PredicateReturnValue : Type :=
| kEndOfRedpath
| kEndByPredicate
| kContinue.

#[global] Instance PredicateReturnValue_eq_dec : EqDecision PredicateReturnValue.
Proof. solve_decision. Defined.

(** ** The planner, over an arbitrary resource view *)

(** The collaborators of the planner.  [interface.h], [normalizer.h],
    [query_result.proto], [lib/time] and the planner's own header are not
    among the sources, so the planner is embedded over any implementation of
    what it calls:
    - [Get var name] is [var[name]];
    - [AsObject var] tells whether [var.AsObject()] is non-null;
    - [AsIterable var] is [None] when [var.AsIterable()] is null and the
      members in iteration order otherwise;
    - [Normalize var subquery] is [normalizer->Normalize], [None] standing
      for a non-ok status;
    - [Now] reads the clock, and [AbslTimeToProtoTime] may fail;
    - [iteration_order] is the order in which a [NodeToSubqueryHandles] map,
      given by its entries in order of first insertion, is iterated: some
      rearrangement of the entries. *)
Class Collaborators : Type := {
  RedfishVariant : Type;
  SubqueryDataSet : Type;
  Clock : Type;
  Time : Type;
  Timestamp : Type;
  Get : RedfishVariant → string → RedfishVariant;
  AsObject : RedfishVariant → bool;
  AsIterable : RedfishVariant → option (list RedfishVariant);
  Normalize : RedfishVariant → Subquery → option SubqueryDataSet;
  Now : Clock → Time * Clock;
  AbslTimeToProtoTime : Time → option Timestamp;
  iteration_order : ∀ {A : Type}, list (string * A) → list (string * A);
  iteration_order_perm : ∀ (A : Type) (m : list (string * A)),
      iteration_order m ≡ₚ m;
}.

(** A step of a compiled redpath: the node name and the predicate handler,
    a [std::pair]. *)
Abbreviation Step := (string * (RedfishVariant → bool))%type.

Section Planner.

Context `{Collaborators}.

(** *** SubqueryHandle *)

Definition ApplySelectAllFilter (_ : RedfishVariant) : bool := true.

(** [iter_] is a vector iterator; it is embedded as the index it points at.
    Copies of a handle carry their own [iter_]. *)
Record SubqueryHandle : Type := {
  subquery_ : Subquery;
  is_redpath_valid_ : bool;
  steps_in_redpath_ : list Step;
  iter_ : nat;
}.

Definition GetSubquery (h : SubqueryHandle) : Subquery := subquery_ h.

(** The loop of the constructor: the steps collected so far and whether
    every step expression was accepted ([false] is the early [return]). *)
Fixpoint compile_steps (step_expressions : list string) (steps : list Step)
  : list Step * bool :=
  match step_expressions with
  | [] => (steps, true)
  | step_expression :: rest =>
      match GetNodeAndPredicate step_expression with
      | None => (steps, false)
      | Some (node_name, predicate) =>
          if decide (predicate = kPredicateSelectAll)
          then compile_steps rest (steps ++ [(node_name, ApplySelectAllFilter)])
          else (steps, false)
      end
  end.

(** [SubqueryHandle::SubqueryHandle].  On the early return [iter_] is left
    unset; it is never read then, and stands at [0] here. *)
Definition SubqueryHandle_ctor (sq : Subquery) : SubqueryHandle :=
  let '(steps, ok) :=
    compile_steps (StringView.StrSplit_SkipEmpty (redpath sq) "/"%char) [] in
  {| subquery_ := sq;
     is_redpath_valid_ := ok;
     steps_in_redpath_ := steps;
     iter_ := 0 |}.

(** The unchecked read [*iter_]. *)
Definition deref (h : SubqueryHandle) : outcome Step :=
  match steps_in_redpath_ h !! iter_ h with
  | Some step => Done step
  | None => InvalidRead
  end.

Definition NextNodeInRedpath (h : SubqueryHandle) : outcome (option string) :=
  if is_redpath_valid_ h then step ← deref h; mret (Some step.1)
  else mret None.

Definition advance (h : SubqueryHandle) : SubqueryHandle :=
  {| subquery_ := subquery_ h;
     is_redpath_valid_ := is_redpath_valid_ h;
     steps_in_redpath_ := steps_in_redpath_ h;
     iter_ := S (iter_ h) |}.

(** [!steps_in_redpath_.empty() && iter_->first == steps_in_redpath_.back().first] *)
Definition names_last_step (h : SubqueryHandle) (node_name : string) : bool :=
  match last (steps_in_redpath_ h) with
  | Some back => bool_decide (node_name = back.1)
  | None => false
  end.

(** [FilterNodeSet] returns the status and leaves the handle advanced on
    [kContinue]. *)
Definition FilterNodeSet (h : SubqueryHandle) (redfish_variant : RedfishVariant)
  : outcome (PredicateReturnValue * SubqueryHandle) :=
  step ← deref h;
  let is_filter_success := step.2 redfish_variant in
  if negb is_filter_success then mret (kEndByPredicate, h)
  else if names_last_step h step.1 then mret (kEndOfRedpath, h)
  else mret (kContinue, advance h).

(** *** Result and execution state *)

(** Modelled from the spec: [DelliciusQueryResult] is declared in
    [query_result.proto]; [subquery_output_by_id] maps a subquery id to the
    list of its data sets. *)
Record DelliciusQueryResult : Type := {
  query_ids : list string;
  start_timestamp : option Timestamp;
  end_timestamp : option Timestamp;
  subquery_output_by_id : gmap string (list SubqueryDataSet);
}.

(** What the walker asks of its collaborators: [Request var node] is one
    evaluation of [var[node]], and [Evaluate h var] is one call of
    [h.FilterNodeSet(var)], with the handle as it is on entry. *)
Inductive Event : Type :=
| Request (var : RedfishVariant) (node : string)
| Evaluate (h : SubqueryHandle) (var : RedfishVariant).

(** The state the walker threads: the result under construction and the
    events so far, oldest first. *)
Record ExecState : Type := {
  result : DelliciusQueryResult;
  trace : list Event;
}.

Definition empty_result : DelliciusQueryResult :=
  {| query_ids := []; start_timestamp := None; end_timestamp := None;
     subquery_output_by_id := ∅ |}.

Definition initial_state : ExecState :=
  {| result := empty_result; trace := [] |}.

(** [subquery_output[id].mutable_data_set()->Add(data)]: indexing the map
    creates the entry when it is absent. *)
Definition add_data_set (id : string) (data : SubqueryDataSet)
    (m : gmap string (list SubqueryDataSet)) : gmap string (list SubqueryDataSet) :=
  <[id := default [] (m !! id) ++ [data]]> m.

Definition with_output (f : gmap string (list SubqueryDataSet) →
                            gmap string (list SubqueryDataSet))
    (st : ExecState) : ExecState :=
  {| result :=
       {| query_ids := query_ids (result st);
          start_timestamp := start_timestamp (result st);
          end_timestamp := end_timestamp (result st);
          subquery_output_by_id := f (subquery_output_by_id (result st)) |};
     trace := trace st |}.

Definition log (ev : Event) (st : ExecState) : ExecState :=
  {| result := result st; trace := trace st ++ [ev] |}.

(** The [kEndOfRedpath] branch of [QualifyEachSubquery]. *)
Definition emit (var : RedfishVariant) (h : SubqueryHandle) (st : ExecState)
  : ExecState :=
  let sq := GetSubquery h in
  match Normalize var sq with
  | Some normalized_data =>
      with_output (add_data_set (subquery_id sq) normalized_data) st
  | None => st
  end.

(** *** The walker *)

(** [NodeToSubqueryHandles] maps a node name to a vector of handles; the
    embedding keeps the entries in order of first insertion and leaves the
    order in which the container is iterated to [iteration_order]. *)
Definition NodeToSubqueryHandles : Type := list (string * list SubqueryHandle).

(** [node_to_subquery[node_name].push_back(handle)] *)
Fixpoint push_back_at (node_name : string) (h : SubqueryHandle)
    (m : NodeToSubqueryHandles) : NodeToSubqueryHandles :=
  match m with
  | [] => [(node_name, [h])]
  | (key, handles) :: m' =>
      if decide (key = node_name) then (key, handles ++ [h]) :: m'
      else (key, handles) :: push_back_at node_name h m'
  end.

Definition DeduplicateExpression (subquery_handles : list SubqueryHandle)
  : outcome NodeToSubqueryHandles :=
  for_each (fun subquery_handle node_to_subquery =>
              node_name ← NextNodeInRedpath subquery_handle;
              match node_name with
              | Some node => mret (push_back_at node subquery_handle node_to_subquery)
              | None => mret node_to_subquery
              end)
           subquery_handles [].

(** The loop of [QualifyEachSubquery] over its own copy of the handles. *)
Definition qualify_one (var : RedfishVariant) (subquery_handle : SubqueryHandle)
    (acc : list SubqueryHandle * ExecState)
  : outcome (list SubqueryHandle * ExecState) :=
  let st := log (Evaluate subquery_handle var) acc.2 in
  '(status, subquery_handle') ← FilterNodeSet subquery_handle var;
  match status with
  | kEndOfRedpath => mret (acc.1, emit var subquery_handle' st)
  | kContinue => mret (acc.1 ++ [subquery_handle'], st)
  | kEndByPredicate => mret (acc.1, st)
  end.

(** The three mutually recursive functions, with the recursive call of
    [QualifyEachSubquery] into [RunRecursive] left open as [run]. *)
Section Step.

Variable run : RedfishVariant → list SubqueryHandle → ExecState → outcome ExecState.

Definition QualifyEachSubquery (var : RedfishVariant)
    (handles : list SubqueryHandle) (st : ExecState) : outcome ExecState :=
  '(qualified_subqueries, st') ← for_each (qualify_one var) handles ([], st);
  match qualified_subqueries with
  | [] => mret st'
  | _ => run var qualified_subqueries st'
  end.

Definition dispatch_one (var : RedfishVariant)
    (entry : string * list SubqueryHandle) (st : ExecState) : outcome ExecState :=
  let '(resource_name, handles) := entry in
  let variant := Get var resource_name in
  let st := log (Request var resource_name) st in
  if negb (AsObject variant) then mret st
  else match AsIterable variant with
       | Some collection =>
           for_each (fun member => QualifyEachSubquery member handles)
                    collection st
       | None => QualifyEachSubquery variant handles st
       end.

Definition Dispatch (var : RedfishVariant)
    (resource_x_sq : NodeToSubqueryHandles) (st : ExecState) : outcome ExecState :=
  for_each (dispatch_one var) (iteration_order resource_x_sq) st.

Definition RunRecursive_step (variant : RedfishVariant)
    (subquery_handles : list SubqueryHandle) (st : ExecState) : outcome ExecState :=
  node_to_subquery ← DeduplicateExpression subquery_handles;
  match node_to_subquery with
  | [] => mret st
  | _ => Dispatch variant node_to_subquery st
  end.

End Step.

(** [RunRecursive] at nesting depth at most [S depth]. *)
Fixpoint RunRecursive_at (depth : nat) (variant : RedfishVariant)
    (subquery_handles : list SubqueryHandle) (st : ExecState) : outcome ExecState :=
  RunRecursive_step
    (fun var qualified st' =>
       match depth with
       | O => OutOfFuel
       | S depth' => RunRecursive_at depth' var qualified st'
       end)
    variant subquery_handles st.

(** Every level of the recursion consumes one step of every handle it
    keeps, so the steps still ahead of the handles bound the nesting. *)
Definition steps_ahead (h : SubqueryHandle) : nat :=
  List.length (steps_in_redpath_ h) - iter_ h.

Definition redpath_depth (handles : list SubqueryHandle) : nat :=
  foldr Nat.max O (steps_ahead <$> handles).

Definition RunRecursive (variant : RedfishVariant)
    (subquery_handles : list SubqueryHandle) (st : ExecState) : outcome ExecState :=
  RunRecursive_at (redpath_depth subquery_handles) variant subquery_handles st.

(** *** QueryPlanner *)

Record QueryPlanner : Type := {
  plan_id_ : string;
  subquery_handles_ : list SubqueryHandle;
}.

(** The body of the constructor's loop: the handle is kept unless its
    [NextNodeInRedpath] is [nullopt]. *)
Definition keep_if_valid (sq : Subquery) (handles : list SubqueryHandle)
  : outcome (list SubqueryHandle) :=
  let subquery_handle := SubqueryHandle_ctor sq in
  node_name ← NextNodeInRedpath subquery_handle;
  match node_name with
  | None => mret handles
  | Some _ => mret (handles ++ [subquery_handle])
  end.

(** [QueryPlanner::QueryPlanner] *)
Definition QueryPlanner_ctor (query : DelliciusQuery) : outcome QueryPlanner :=
  handles ← for_each keep_if_valid (subquery query) [];
  mret {| plan_id_ := query_id query; subquery_handles_ := handles |}.

Definition set_start_timestamp (t : option Timestamp) (st : ExecState) : ExecState :=
  match t with
  | Some ts =>
      {| result :=
           {| query_ids := query_ids (result st);
              start_timestamp := Some ts;
              end_timestamp := end_timestamp (result st);
              subquery_output_by_id := subquery_output_by_id (result st) |};
         trace := trace st |}
  | None => st
  end.

Definition set_end_timestamp (t : option Timestamp) (st : ExecState) : ExecState :=
  match t with
  | Some ts =>
      {| result :=
           {| query_ids := query_ids (result st);
              start_timestamp := start_timestamp (result st);
              end_timestamp := Some ts;
              subquery_output_by_id := subquery_output_by_id (result st) |};
         trace := trace st |}
  | None => st
  end.

Definition add_query_ids (id : string) (st : ExecState) : ExecState :=
  {| result :=
       {| query_ids := query_ids (result st) ++ [id];
          start_timestamp := start_timestamp (result st);
          end_timestamp := end_timestamp (result st);
          subquery_output_by_id := subquery_output_by_id (result st) |};
     trace := trace st |}.

(** [QueryPlanner::Run]; the clock is read twice and handed back. *)
Definition Run (qp : QueryPlanner) (variant : RedfishVariant) (clock : Clock)
    (st : ExecState) : outcome (ExecState * Clock) :=
  let '(now, clock) := Now clock in
  let st := set_start_timestamp (AbslTimeToProtoTime now) st in
  let st := add_query_ids (plan_id_ qp) st in
  st ← RunRecursive variant (subquery_handles_ qp) st;
  let '(now, clock) := Now clock in
  let st := set_end_timestamp (AbslTimeToProtoTime now) st in
  mret (st, clock).

(** Compiling a query and running it once on a fresh result. *)
Definition execute (query : DelliciusQuery) (variant : RedfishVariant)
    (clock : Clock) : outcome (ExecState * Clock) :=
  qp ← QueryPlanner_ctor query;
  Run qp variant clock initial_state.

End Planner.

(** ** A concrete resource view *)

(** Modelled from the spec: the resource view is a navigable JSON document
    that is a singleton object, an iterable collection or a scalar, with
    child lookup by member name and iteration over collection members.  The
    view below is a JSON tree held in memory: an object that has a [Members]
    array is a collection, an array is iterable but is no object, and the
    lookup of an absent member yields the null view.  The normalizer resolves
    every requested property as a string member and drops the record when no
    property resolves; the clock is a counter of its readings. *)
Module Mockup.

#[local] Set Warnings "-register-all".

Inductive Json : Type :=
| JNull
| JString (value : string)
| JArray (elements : list Json)
| JObject (members : list (string * Json)).

Fixpoint member (key : string) (members : list (string * Json)) : Json :=
  match members with
  | [] => JNull
  | (k, v) :: rest => if decide (k = key) then v else member key rest
  end.

Definition get (var : Json) (node : string) : Json :=
  match var with
  | JObject members => member node members
  | _ => JNull
  end.

Definition as_object (var : Json) : bool :=
  match var with
  | JObject _ => true
  | _ => false
  end.

Definition as_iterable (var : Json) : option (list Json) :=
  match var with
  | JArray elements => Some elements
  | JObject members =>
      match member "Members" members with
      | JArray elements => Some elements
      | _ => None
      end
  | _ => None
  end.

Definition record_key (p : Property) : string :=
  default (property p) (name p).

Definition normalize (var : Json) (sq : Subquery)
  : option (list (string * string)) :=
  let fields :=
    omap (fun p => match get var (property p) with
                   | JString value => Some (record_key p, value)
                   | _ => None
                   end)
         (properties sq) in
  match fields with
  | [] => None
  | _ => Some fields
  end.

#[global] Instance collaborators : Collaborators := {|
  RedfishVariant := Json;
  SubqueryDataSet := list (string * string);
  Clock := nat;
  Time := nat;
  Timestamp := nat;
  Get := get;
  AsObject := as_object;
  AsIterable := as_iterable;
  Normalize := normalize;
  Now := fun clock => (clock, S clock);
  AbslTimeToProtoTime := Some;
  iteration_order := fun A m => m;
  iteration_order_perm := fun A m => reflexivity m;
|}.

Definition string_property (path : string) : Property :=
  {| property := path; name := None; type := STRING |}.

Definition chassis : Json :=
  JObject [("Name", JString "chassis"); ("Id", JString "chassis");
           ("Status", JObject [("State", JString "StandbyOffline")]);
           ("Links", JObject [("Chassis", JObject [("Name", JString "inner")])])].

(** The service root of the end-to-end scenarios: a [Chassis] collection
    with the single member [chassis]. *)
Definition service_root : Json :=
  JObject [("Chassis", JObject [("Members", JArray [chassis])])].

Definition scenario_A : DelliciusQuery :=
  {| query_id := "Q1";
     subquery := [ {| subquery_id := "S1"; redpath := "/Chassis[*]";
                      properties := [string_property "Name"] |} ] |}.


Definition name_of_chassis : Subquery :=
  {| subquery_id := "S1"; redpath := "/Chassis[*]";
     properties := [string_property "Name"] |}.

(** Scenario E: a subquery without brackets next to a well-formed one. *)
Definition missing_brackets : Subquery :=
  {| subquery_id := "S2"; redpath := "/Chassis*";
     properties := [string_property "Id"] |}.

(** A redpath whose first and last step name the same node. *)
Definition chassis_of_links : Subquery :=
  {| subquery_id := "S1"; redpath := "/Chassis[*]/Links[*]/Chassis[*]";
     properties := [string_property "Name"] |}.

(** A step whose closing bracket comes before its opening bracket. *)
Definition reversed_brackets : Subquery :=
  {| subquery_id := "S1"; redpath := "/Chassis][*";
     properties := [string_property "Name"] |}.

(** Redpaths without a step: the empty string and a lone separator. *)
Definition empty_redpath : Subquery :=
  {| subquery_id := "S1"; redpath := ""; properties := [string_property "Name"] |}.

Definition separator_only : Subquery :=
  {| subquery_id := "S1"; redpath := "/"; properties := [string_property "Name"] |}.

Definition query_of (subqueries : list Subquery) : DelliciusQuery :=
  {| query_id := "Q1"; subquery := subqueries |}.

Definition planner_of (subqueries : list Subquery) : QueryPlanner :=
  {| plan_id_ := "Q1"; subquery_handles_ := SubqueryHandle_ctor <$> subqueries |}.

(** A view whose [Links] member is an array: iterable, but no object. *)
Definition links_array : Json :=
  JObject [("Links", JArray [chassis])].

Definition links_members : Subquery :=
  {| subquery_id := "S1"; redpath := "/Links[*]";
     properties := [string_property "Name"] |}.

Definition state_of_status : Subquery :=
  {| subquery_id := "S2"; redpath := "/Chassis[*]/Status[*]";
     properties := [string_property "State"] |}.

Definition spare_chassis : Json :=
  JObject [("Name", JString "spare"); ("Id", JString "spare")].

(** A service root whose [Chassis] collection has two members; the second
    has no [Status]. *)
Definition two_chassis_root : Json :=
  JObject [("Chassis", JObject [("Members", JArray [chassis; spare_chassis])])].

(** A second subquery under the id [S1], with another redpath. *)
Definition state_as_S1 : Subquery :=
  {| subquery_id := "S1"; redpath := "/Chassis[*]/Status[*]";
     properties := [string_property "State"] |}.

End Mockup.

(** ** Vocabulary of the statements *)

(** The character occurs in the string. *)
Fixpoint has_char (c : ascii) (s : string) : bool :=
  match s with
  | EmptyString => false
  | String a s' => bool_decide (a = c) || has_char c s'
  end.

(** A node name that can be written as a step: it has no separator and
    no bracket, and the step fits a [size_t]. *)
Definition plain_node (node : string) : Prop :=
  has_char "/"%char node = false ∧
  has_char "["%char node = false ∧
  has_char "]"%char node = false ∧
  (StringView.size node + 3 < StringView.size_max)%Z.

(** The redpath [/n1[*]/n2[*]...] that selects everything along the nodes. *)
Definition render_step (node : string) : string := node +:+ "[*]".

Definition render_redpath (nodes : list string) : string :=
  foldr (fun node rest => "/" +:+ node +:+ "[*]" +:+ rest) EmptyString nodes.

(** A step expression the constructor accepts: it has both brackets and the
    text that [GetNodeAndPredicate] extracts as the predicate is [*]. *)
Definition step_accepted (step_expression : string) : Prop :=
  ∃ node_name, GetNodeAndPredicate step_expression = Some (node_name, kPredicateSelectAll).

(** A step expression the constructor turns down: a bracket is missing, or
    the text extracted as the predicate is not [*]. *)
Definition step_rejected (step_expression : string) : Prop :=
  GetNodeAndPredicate step_expression = None ∨
  ∃ node_name predicate,
    GetNodeAndPredicate step_expression = Some (node_name, predicate) ∧
    predicate ≠ kPredicateSelectAll.

(** The compilation of a subquery fails: one of its steps is turned down. *)
Definition compilation_fails (sq : Subquery) : Prop :=
  Exists step_rejected (StringView.StrSplit_SkipEmpty (redpath sq) "/"%char).

Section Vocabulary.

Context `{Collaborators}.

(** A handle on which the unchecked read is in range. *)
Definition in_range (h : SubqueryHandle) : Prop :=
  (iter_ h < List.length (steps_in_redpath_ h))%nat.

(** The handles the walker works on: valid, cursor in range, and at most
    [bound] steps ahead. *)
Definition active (bound : nat) (h : SubqueryHandle) : Prop :=
  is_redpath_valid_ h = true ∧ in_range h ∧ (steps_ahead h ≤ bound)%nat.

(** An active handle that also satisfies [P]. *)
Definition live (P : SubqueryHandle → Prop) (bound : nat) (h : SubqueryHandle) : Prop :=
  active bound h ∧ P h.

(** The cursor stands on the last step of the compiled path. *)
Definition at_last_step (h : SubqueryHandle) : Prop :=
  S (iter_ h) = List.length (steps_in_redpath_ h).

(** The node name under the cursor. *)
Definition node_of (h : SubqueryHandle) : string :=
  match steps_in_redpath_ h !! iter_ h with
  | Some step => step.1
  | None => EmptyString
  end.

(** The status [FilterNodeSet] returns for a handle whose cursor is in
    range. *)
Definition verdict (h : SubqueryHandle) (var : RedfishVariant) : PredicateReturnValue :=
  match steps_in_redpath_ h !! iter_ h with
  | Some step =>
      if negb (step.2 var) then kEndByPredicate
      else if names_last_step h step.1 then kEndOfRedpath
      else kContinue
  | None => kEndByPredicate
  end.

Definition continues (var : RedfishVariant) (h : SubqueryHandle) : bool :=
  match verdict h var with
  | kContinue => true
  | _ => false
  end.

(** The handles [QualifyEachSubquery] keeps for the recursion. *)
Definition survivors (var : RedfishVariant) (handles : list SubqueryHandle)
  : list SubqueryHandle :=
  advance <$> List.filter (continues var) handles.

(** The state after the loop of [QualifyEachSubquery]. *)
Definition qualified_state (var : RedfishVariant) (handles : list SubqueryHandle)
    (st : ExecState) : ExecState :=
  foldl (fun st h =>
           let st := log (Evaluate h var) st in
           match verdict h var with
           | kEndOfRedpath => emit var h st
           | _ => st
           end)
        st handles.

(** The recursive call of [QualifyEachSubquery] at nesting depth [depth]. *)
Definition descend (depth : nat) (var : RedfishVariant)
    (qualified : list SubqueryHandle) (st : ExecState) : outcome ExecState :=
  match depth with
  | O => OutOfFuel
  | S depth' => RunRecursive_at depth' var qualified st
  end.

(** The grouping [DeduplicateExpression] computes from handles in range. *)
Definition grouped (handles : list SubqueryHandle) (m : NodeToSubqueryHandles)
  : NodeToSubqueryHandles :=
  foldl (fun m h => push_back_at (node_of h) h m) m handles.

(** [extend st d]: the state [st] followed by what a run that started from
    [initial_state] and ended in [d] did. *)
Definition merge_output (m d : gmap string (list SubqueryDataSet))
  : gmap string (list SubqueryDataSet) :=
  union_with (fun a b => Some (a ++ b)) m d.

Definition extend (st d : ExecState) : ExecState :=
  {| result :=
       {| query_ids := query_ids (result st);
          start_timestamp := start_timestamp (result st);
          end_timestamp := end_timestamp (result st);
          subquery_output_by_id :=
            merge_output (subquery_output_by_id (result st))
                         (subquery_output_by_id (result d)) |};
     trace := trace st ++ trace d |}.

(** The records in the bucket of [id]; an absent bucket holds none. *)
Definition records_of (id : string) (st : ExecState) : list SubqueryDataSet :=
  default [] (subquery_output_by_id (result st) !! id).

Definition record_count (id : string) (st : ExecState) : nat :=
  List.length (records_of id st).

(** The records a computation leaves in the bucket of [id], none when it
    does not complete. *)
Definition yield (id : string) (o : outcome ExecState) : nat :=
  match o with
  | Done d => record_count id d
  | _ => O
  end.

(** The records the recursion at [depth] adds for the handles [q] it is
    called with; it is not called with none. *)
Definition descent_yield (id : string) (depth : nat) (var : RedfishVariant)
    (q : list SubqueryHandle) : nat :=
  match q with
  | [] => O
  | _ => yield id (descend depth var q initial_state)
  end.

(** The records the dispatch at [depth] adds for the groups of a map. *)
Definition groups_yield (id : string) (depth : nat) (var : RedfishVariant)
    (m : NodeToSubqueryHandles) : nat :=
  sum_list_with
    (fun entry => yield id (dispatch_one (descend depth) var entry initial_state)) m.

(** The handle of a subquery can be read wherever the planner reads it. *)
Definition readable (sq : Subquery) : Prop :=
  is_redpath_valid_ (SubqueryHandle_ctor sq) = true → in_range (SubqueryHandle_ctor sq).

(** The records a handle gives in the bucket of [id] when it runs alone. *)
Definition handle_yield (id : string) (variant : RedfishVariant) (h : SubqueryHandle) : nat :=
  yield id (RunRecursive variant [h] initial_state).

(** The records the valid handles of some subqueries give, each alone. *)
Definition subqueries_yield (id : string) (variant : RedfishVariant)
    (subqueries : list Subquery) : nat :=
  sum_list_with (handle_yield id variant)
    (List.filter is_redpath_valid_ (SubqueryHandle_ctor <$> subqueries)).

(** The redpath of the subquery splits into at least one step expression. *)
Definition has_steps (sq : Subquery) : Prop :=
  StringView.StrSplit_SkipEmpty (redpath sq) "/"%char ≠ [].

#[global] Instance has_steps_dec (sq : Subquery) : Decision (has_steps sq).
Proof. unfold has_steps. apply _. Defined.

(** Every bucket of the state holds at least one record, and each of its
    records is what the normalizer returned for some resource and for a
    subquery of [subqueries] that has the id of the bucket and a valid
    handle. *)
Definition buckets_normalized (subqueries : list Subquery) (st : ExecState) : Prop :=
  ∀ id records,
    subquery_output_by_id (result st) !! id = Some records →
    records ≠ [] ∧
    Forall (fun data =>
              ∃ sq var, sq ∈ subqueries ∧ subquery_id sq = id ∧
                        is_redpath_valid_ (SubqueryHandle_ctor sq) = true ∧
                        Normalize var sq = Some data)
           records.

(** The resources one step reaches from a resource: none when the child of
    that name is no object, the members of the child when it is a collection,
    and the child itself otherwise. *)
Definition step_members (var : RedfishVariant) (node : string) : list RedfishVariant :=
  let child := Get var node in
  if AsObject child then
    match AsIterable child with
    | Some collection => collection
    | None => [child]
    end
  else [].

(** The resources a sequence of node names selects from a resource, step
    by step and in the order of the members; no step selects the resource
    itself. *)
Fixpoint redpath_matches (nodes : list string) (var : RedfishVariant)
  : list RedfishVariant :=
  match nodes with
  | [] => [var]
  | node :: rest => List.concat (List.map (redpath_matches rest) (step_members var node))
  end.

(** The handle belongs to a subquery of that id. *)
Definition has_id (id : string) (h : SubqueryHandle) : bool :=
  bool_decide (subquery_id (subquery_ h) = id).

(** The handle asks for that node next. *)
Definition asks_for (node : string) (h : SubqueryHandle) : bool :=
  bool_decide (node_of h = node).

(** The state a computation ends in, the initial state when it does not
    complete. *)
Definition final_state (o : outcome ExecState) : ExecState :=
  match o with
  | Done d => d
  | _ => initial_state
  end.

(** The requests among the events. *)
Definition requested (events : list Event) : list (RedfishVariant * string) :=
  omap (fun ev => match ev with
                  | Request var node => Some (var, node)
                  | Evaluate _ _ => None
                  end) events.

(** The calls of [FilterNodeSet] among the events. *)
Definition evaluated (events : list Event) : list (SubqueryHandle * RedfishVariant) :=
  omap (fun ev => match ev with
                  | Request _ _ => None
                  | Evaluate h var => Some (h, var)
                  end) events.

(** Every call of [FilterNodeSet] so far was made on a valid handle whose
    cursor was inside its step list. *)
Definition evaluations_in_range (st : ExecState) : Prop :=
  Forall (fun call : SubqueryHandle * RedfishVariant =>
            is_redpath_valid_ call.1 = true ∧
            (0 ≤ iter_ call.1 < List.length (steps_in_redpath_ call.1))%nat)
         (evaluated (trace st)).

(** A continuation of the walker that only appends to the state. *)
Definition framed
    (run : RedfishVariant → list SubqueryHandle → ExecState → outcome ExecState)
  : Prop :=
  ∀ var q st d, run var q (extend st d) = extend st <$> run var q d.

End Vocabulary.

(** * Properties *)

(** ** Outcomes and loops *)


Lemma for_each_ext {A S : Type} (f g : A → S → outcome S) (xs : list A) (s : S) :
  (∀ x s, x ∈ xs → f x s = g x s) → for_each f xs s = for_each g xs s.
Proof.
  revert s. induction xs as [|x xs IH]; intros s Hfg; simpl; [done|].
  rewrite Hfg by (by left). destruct (g x s) as [s'| |]; simpl; [|done|done].
  apply IH. intros y t Hy. apply Hfg. by right.
Qed.

(** A loop whose body always completes and keeps an invariant completes and
    keeps it. *)
Lemma for_each_invariant {A S : Type} (I : S → Prop) (body : A → S → outcome S)
    (xs : list A) (s : S) :
  I s →
  (∀ x t, x ∈ xs → I t → ∃ t', body x t = Done t' ∧ I t') →
  ∃ s', for_each body xs s = Done s' ∧ I s'.
Proof.
  revert s. induction xs as [|x xs IH]; intros s Hs Hbody; simpl; [eauto|].
  destruct (Hbody x s) as (t & -> & Ht); [by left|done|]. simpl.
  apply IH; [done|]. intros y u Hy Hu. apply Hbody; [by right|done].
Qed.

(** ** Step parser and handle construction *)

Example GetNodeAndPredicate_chassis :
  GetNodeAndPredicate "Chassis[*]" = Some ("Chassis", "*").
Proof. vm_compute. reflexivity. Qed.

Example GetNodeAndPredicate_no_brackets :
  GetNodeAndPredicate "Chassis*" = None.
Proof. vm_compute. reflexivity. Qed.

Example GetNodeAndPredicate_other_predicate :
  GetNodeAndPredicate "Chassis[Name=foo]" = Some ("Chassis", "Name=foo").
Proof. vm_compute. reflexivity. Qed.

Example StrSplit_redpath :
  StringView.StrSplit_SkipEmpty "/Chassis[*]//Status[*]/" "/"%char
  = ["Chassis[*]"; "Status[*]"].
Proof. vm_compute. reflexivity. Qed.

Example StrSplit_empty : StringView.StrSplit_SkipEmpty "" "/"%char = [].
Proof. vm_compute. reflexivity. Qed.

Section HandleFacts.

Context `{Collaborators}.

Lemma compile_steps_valid (step_expressions : list string) (steps : list Step) :
  (compile_steps step_expressions steps).2 = true ↔
  Forall step_accepted step_expressions.
Proof.
  revert steps. induction step_expressions as [|e es IH]; intros steps; simpl.
  - split; [constructor|done].
  - destruct (GetNodeAndPredicate e) as [[node predicate]|] eqn:He.
    + destruct (decide (predicate = kPredicateSelectAll)) as [->|Hne].
      * rewrite IH. split.
        -- intros Hes. constructor; [by exists node|done].
        -- by inversion 1.
      * simpl. split; [done|]. inversion 1 as [|? ? [node' Hacc] _]; subst.
        rewrite He in Hacc. congruence.
    + simpl. split; [done|]. inversion 1 as [|? ? [node' Hacc] _]; subst.
      rewrite He in Hacc. congruence.
Qed.

Lemma compile_steps_length (step_expressions : list string) (steps : list Step) :
  (compile_steps step_expressions steps).2 = true →
  List.length (compile_steps step_expressions steps).1
  = (List.length steps + List.length step_expressions)%nat.
Proof.
  revert steps. induction step_expressions as [|e es IH]; intros steps; simpl.
  - intros _. lia.
  - destruct (GetNodeAndPredicate e) as [[node predicate]|]; [|done].
    destruct (decide (predicate = kPredicateSelectAll)); [|done].
    intros Hok. rewrite IH by done. rewrite length_app. simpl. lia.
Qed.

Lemma SubqueryHandle_ctor_valid (sq : Subquery) :
  is_redpath_valid_ (SubqueryHandle_ctor sq) = true ↔
  Forall step_accepted (StringView.StrSplit_SkipEmpty (redpath sq) "/"%char).
Proof.
  unfold SubqueryHandle_ctor. rewrite <- (compile_steps_valid _ []).
  by destruct (compile_steps _ _).
Qed.

Lemma SubqueryHandle_ctor_subquery (sq : Subquery) :
  subquery_ (SubqueryHandle_ctor sq) = sq.
Proof. unfold SubqueryHandle_ctor. by destruct (compile_steps _ _). Qed.

Lemma SubqueryHandle_ctor_iter (sq : Subquery) :
  iter_ (SubqueryHandle_ctor sq) = O.
Proof. unfold SubqueryHandle_ctor. by destruct (compile_steps _ _). Qed.

Lemma deref_in_range (h : SubqueryHandle) :
  in_range h → ∃ step, steps_in_redpath_ h !! iter_ h = Some step ∧ deref h = Done step.
Proof.
  intros Hr. destruct (lookup_lt_is_Some_2 _ _ Hr) as [step Hstep].
  exists step. unfold deref. by rewrite Hstep.
Qed.

Lemma deref_Done (h : SubqueryHandle) (step : Step) :
  deref h = Done step → in_range h.
Proof.
  unfold deref, in_range. destruct (_ !! _) eqn:Hl; [|done].
  intros _. by eapply lookup_lt_Some.
Qed.

(** When the name under the cursor is not the name of the last step, the
    cursor is not on the last step. *)
Lemma not_last_name_not_last (h : SubqueryHandle) (step : Step) :
  steps_in_redpath_ h !! iter_ h = Some step →
  names_last_step h step.1 = false →
  (S (iter_ h) < List.length (steps_in_redpath_ h))%nat.
Proof.
  intros Hl Hname. pose proof (lookup_lt_Some _ _ _ Hl) as Hlt.
  destruct (decide (S (iter_ h) = List.length (steps_in_redpath_ h))) as [Heq|]; [|lia].
  unfold names_last_step in Hname. rewrite last_lookup in Hname.
  rewrite <- Heq in Hname. simpl in Hname. rewrite Hl in Hname.
  by rewrite bool_decide_eq_false in Hname.
Qed.

(** What one call of [FilterNodeSet] does to a handle whose cursor is in
    range: it completes, and the handle is unchanged or advanced by one and
    still in range. *)
Lemma FilterNodeSet_in_range (h : SubqueryHandle) (var : RedfishVariant) :
  in_range h →
  ∃ status h',
    FilterNodeSet h var = Done (status, h') ∧ in_range h' ∧
    steps_in_redpath_ h' = steps_in_redpath_ h ∧
    subquery_ h' = subquery_ h ∧
    is_redpath_valid_ h' = is_redpath_valid_ h ∧
    (status = kContinue → h' = advance h) ∧
    (status ≠ kContinue → h' = h).
Proof.
  intros Hr. destruct (deref_in_range h Hr) as (step & Hl & Hd).
  unfold FilterNodeSet. rewrite Hd. simpl.
  destruct (step.2 var); simpl.
  - destruct (names_last_step h step.1) eqn:Hlast.
    + exists kEndOfRedpath, h. by repeat split.
    + exists kContinue, (advance h). repeat split; try done.
      by apply (not_last_name_not_last h step).
  - exists kEndByPredicate, h. by repeat split.
Qed.

End HandleFacts.

(** ** The walker completes *)

Section WalkerFacts.

Context `{Collaborators}.

Lemma active_in_range (bound : nat) (h : SubqueryHandle) : active bound h → in_range h.
Proof. by intros (_ & ? & _). Qed.

Lemma active_mono (n m : nat) (h : SubqueryHandle) :
  (n ≤ m)%nat → active n h → active m h.
Proof. intros Hnm (? & ? & ?). repeat split; [done..|lia]. Qed.

Lemma active_zero (h : SubqueryHandle) : ¬ active 0 h.
Proof. unfold active, in_range, steps_ahead. lia. Qed.

Lemma NextNodeInRedpath_active (bound : nat) (h : SubqueryHandle) :
  active bound h → NextNodeInRedpath h = Done (Some (node_of h)).
Proof.
  intros (Hv & Hr & _). unfold NextNodeInRedpath, node_of. rewrite Hv.
  destruct (deref_in_range h Hr) as (step & Hl & ->). by rewrite Hl.
Qed.

Lemma DeduplicateExpression_acc (bound : nat) (handles : list SubqueryHandle)
    (m : NodeToSubqueryHandles) :
  Forall (active bound) handles →
  for_each (fun subquery_handle node_to_subquery =>
              node_name ← NextNodeInRedpath subquery_handle;
              match node_name with
              | Some node => mret (push_back_at node subquery_handle node_to_subquery)
              | None => mret node_to_subquery
              end) handles m
  = Done (grouped handles m).
Proof.
  intros Hall. revert m. induction Hall as [|h hs Hh _ IH]; intros m; simpl; [done|].
  rewrite (NextNodeInRedpath_active bound h Hh). simpl. apply IH.
Qed.

Lemma DeduplicateExpression_grouped (bound : nat) (handles : list SubqueryHandle) :
  Forall (active bound) handles →
  DeduplicateExpression handles = Done (grouped handles []).
Proof. apply DeduplicateExpression_acc. Qed.

(** Every handle of a group is one of the handles that were grouped. *)
Lemma push_back_at_Forall (P : SubqueryHandle → Prop) (node : string)
    (h : SubqueryHandle) (m : NodeToSubqueryHandles) :
  P h → Forall (fun entry => Forall P entry.2) m →
  Forall (fun entry => Forall P entry.2) (push_back_at node h m).
Proof.
  intros Hh. induction 1 as [|[key g] m Hg Hm IH]; simpl.
  - by repeat constructor.
  - destruct (decide (key = node)); constructor; simpl in *; try done.
    apply Forall_app. by split; [|repeat constructor].
Qed.

Lemma grouped_Forall (P : SubqueryHandle → Prop) (handles : list SubqueryHandle)
    (m : NodeToSubqueryHandles) :
  Forall P handles → Forall (fun entry => Forall P entry.2) m →
  Forall (fun entry => Forall P entry.2) (grouped handles m).
Proof.
  intros Hall. revert m. induction Hall as [|h hs Hh _ IH]; intros m Hm; simpl; [done|].
  apply IH. by apply push_back_at_Forall.
Qed.

Lemma FilterNodeSet_verdict (h : SubqueryHandle) (var : RedfishVariant) :
  in_range h →
  FilterNodeSet h var
  = Done (verdict h var, if continues var h then advance h else h).
Proof.
  intros Hr. destruct (deref_in_range h Hr) as (step & Hl & Hd).
  unfold FilterNodeSet, continues, verdict. rewrite Hd, Hl. simpl.
  destruct (step.2 var); simpl; [|done].
  by destruct (names_last_step h step.1).
Qed.

Lemma qualify_one_verdict (h : SubqueryHandle) (var : RedfishVariant)
    (q : list SubqueryHandle) (st : ExecState) :
  in_range h →
  qualify_one var h (q, st)
  = Done (q ++ survivors var [h], qualified_state var [h] st).
Proof.
  intros Hr. unfold qualify_one, survivors, qualified_state, continues. simpl.
  rewrite (FilterNodeSet_verdict h var Hr). unfold continues. simpl.
  destruct (verdict h var); simpl; by rewrite ?app_nil_r.
Qed.

Lemma survivors_app (var : RedfishVariant) (g1 g2 : list SubqueryHandle) :
  survivors var (g1 ++ g2) = survivors var g1 ++ survivors var g2.
Proof. unfold survivors. by rewrite List.filter_app, fmap_app. Qed.

Lemma qualified_state_app (var : RedfishVariant) (g1 g2 : list SubqueryHandle)
    (st : ExecState) :
  qualified_state var (g1 ++ g2) st
  = qualified_state var g2 (qualified_state var g1 st).
Proof. unfold qualified_state. by rewrite foldl_app. Qed.

(** The loop of [QualifyEachSubquery], in closed form. *)
Lemma qualify_loop (var : RedfishVariant) (handles q : list SubqueryHandle)
    (st : ExecState) :
  Forall in_range handles →
  for_each (qualify_one var) handles (q, st)
  = Done (q ++ survivors var handles, qualified_state var handles st).
Proof.
  intros Hall. revert q st.
  induction Hall as [|h hs Hh _ IH]; intros q st; simpl.
  - by rewrite app_nil_r.
  - rewrite (qualify_one_verdict h var q st Hh). simpl. rewrite IH.
    rewrite <- app_assoc. by rewrite <- survivors_app.
Qed.

Lemma advance_active (n : nat) (var : RedfishVariant) (h : SubqueryHandle) :
  active (S n) h → continues var h = true → active n (advance h).
Proof.
  intros (Hv & Hr & Hd) Hc. unfold continues, verdict in Hc.
  destruct (steps_in_redpath_ h !! iter_ h) as [step|] eqn:Hl; [|done].
  destruct (negb (step.2 var)); [done|].
  destruct (names_last_step h step.1) eqn:Hlast; [done|].
  pose proof (not_last_name_not_last h step Hl Hlast) as Hlt.
  unfold active, in_range, steps_ahead in *. simpl. repeat split; [done..|lia].
Qed.

Lemma survivors_active (n : nat) (var : RedfishVariant) (handles : list SubqueryHandle) :
  Forall (active (S n)) handles → Forall (active n) (survivors var handles).
Proof.
  induction 1 as [|h hs Hh _ IH]; [constructor|].
  unfold survivors in *. simpl. destruct (continues var h) eqn:Hc; [|done].
  simpl. constructor; [|done]. by eapply advance_active.
Qed.

Lemma QualifyEachSubquery_closed
    (run : RedfishVariant → list SubqueryHandle → ExecState → outcome ExecState)
    (var : RedfishVariant) (handles : list SubqueryHandle) (st : ExecState) :
  Forall in_range handles →
  QualifyEachSubquery run var handles st
  = match survivors var handles with
    | [] => Done (qualified_state var handles st)
    | q => run var q (qualified_state var handles st)
    end.
Proof.
  intros Hall. unfold QualifyEachSubquery. rewrite (qualify_loop _ _ _ _ Hall).
  simpl. by destruct (survivors var handles).
Qed.

Lemma RunRecursive_at_unfold (depth : nat) :
  RunRecursive_at depth = RunRecursive_step (descend depth).
Proof. by destruct depth. Qed.

End WalkerFacts.

Section Completion.

Context `{Collaborators}.

Lemma evaluated_app (evs1 evs2 : list Event) :
  evaluated (evs1 ++ evs2) = evaluated evs1 ++ evaluated evs2.
Proof. apply omap_app. Qed.


Lemma trace_emit (var : RedfishVariant) (h : SubqueryHandle) (st : ExecState) :
  trace (emit var h st) = trace st.
Proof. unfold emit. by destruct (Normalize var (GetSubquery h)). Qed.

(** The loop of [QualifyEachSubquery] evaluates each handle it was given,
    in order, and asks nothing else of the collaborators. *)
Lemma trace_qualified_state (var : RedfishVariant) (handles : list SubqueryHandle)
    (st : ExecState) :
  trace (qualified_state var handles st)
  = trace st ++ ((fun h => Evaluate h var) <$> handles).
Proof.
  revert st. induction handles as [|h hs IH]; intros st.
  - simpl. by rewrite app_nil_r.
  - change (qualified_state var (h :: hs) st)
      with (qualified_state var hs (qualified_state var [h] st)).
    rewrite IH. unfold qualified_state at 1. simpl.
    replace (trace _) with (trace st ++ [Evaluate h var]).
    + by rewrite <- app_assoc.
    + destruct (verdict h var); by rewrite ?trace_emit.
Qed.

(** The walker completes on active handles, and keeps any invariant [I] of
    the state that its three effects keep for handles satisfying [P]. *)
Section Invariant.

Variable P : SubqueryHandle → Prop.
Variable I : ExecState → Prop.

Hypothesis P_advance : ∀ h, P h → P (advance h).
Hypothesis I_request : ∀ var node st, I st → I (log (Request var node) st).
Hypothesis I_evaluate :
  ∀ h var st, is_redpath_valid_ h = true → in_range h → P h → I st →
              I (log (Evaluate h var) st).
Hypothesis I_emit : ∀ var h st, P h → I st → I (emit var h st).

#[local] Abbreviation live := (live P).

Lemma live_in_range (bound : nat) (handles : list SubqueryHandle) :
  Forall (live bound) handles → Forall in_range handles.
Proof. intros Hall. eapply Forall_impl; [exact Hall|]. by intros h [?%active_in_range _]. Qed.

Lemma live_active (bound : nat) (handles : list SubqueryHandle) :
  Forall (live bound) handles → Forall (active bound) handles.
Proof. intros Hall. eapply Forall_impl; [exact Hall|]. by intros h [? _]. Qed.

Lemma survivors_live (n : nat) (var : RedfishVariant) (handles : list SubqueryHandle) :
  Forall (live (S n)) handles → Forall (live n) (survivors var handles).
Proof.
  induction 1 as [|h hs [Hh HP] _ IH]; [constructor|].
  unfold survivors in *. simpl. destruct (continues var h) eqn:Hc; [|done].
  simpl. constructor; [|done]. split; [by eapply advance_active|by apply P_advance].
Qed.

Lemma invariant_qualified (bound : nat) (var : RedfishVariant)
    (handles : list SubqueryHandle) (st : ExecState) :
  Forall (live bound) handles → I st → I (qualified_state var handles st).
Proof.
  intros Hall. revert st.
  induction Hall as [|h hs [(Hv & Hr & _) HP] _ IH]; intros st Hst; [done|].
  change (qualified_state var (h :: hs) st)
    with (qualified_state var hs (qualified_state var [h] st)).
  apply IH. unfold qualified_state. simpl.
  pose proof (I_evaluate h var st Hv Hr HP Hst).
  destruct (verdict h var); try done. by apply I_emit.
Qed.

Section Step.

Variable n : nat.
Variable run : RedfishVariant → list SubqueryHandle → ExecState → outcome ExecState.
Hypothesis run_total :
  ∀ var q st, q ≠ [] → Forall (live n) q → I st → ∃ st', run var q st = Done st' ∧ I st'.

Lemma QualifyEachSubquery_invariant (var : RedfishVariant)
    (handles : list SubqueryHandle) (st : ExecState) :
  Forall (live (S n)) handles → I st →
  ∃ st', QualifyEachSubquery run var handles st = Done st' ∧ I st'.
Proof.
  intros Hall Hst.
  rewrite QualifyEachSubquery_closed by (by eapply live_in_range).
  pose proof (survivors_live n var handles Hall) as Hq.
  pose proof (invariant_qualified _ var handles st Hall Hst) as Hst'.
  destruct (survivors var handles) as [|h' q'] eqn:Hs; [eauto|].
  by apply run_total.
Qed.

Lemma dispatch_one_invariant (var : RedfishVariant)
    (entry : string * list SubqueryHandle) (st : ExecState) :
  Forall (live (S n)) entry.2 → I st →
  ∃ st', dispatch_one run var entry st = Done st' ∧ I st'.
Proof.
  intros Hall Hst. destruct entry as [resource_name handles]. simpl in *.
  pose proof (I_request var resource_name st Hst) as Hlog.
  destruct (AsObject (Get var resource_name)); simpl; [|eauto].
  destruct (AsIterable (Get var resource_name)) as [collection|].
  - apply for_each_invariant; [done|]. intros member t _ Ht.
    by apply QualifyEachSubquery_invariant.
  - by apply QualifyEachSubquery_invariant.
Qed.

Lemma RunRecursive_step_invariant (variant : RedfishVariant)
    (handles : list SubqueryHandle) (st : ExecState) :
  Forall (live (S n)) handles → I st →
  ∃ st', RunRecursive_step run variant handles st = Done st' ∧ I st'.
Proof.
  intros Hall Hst. unfold RunRecursive_step.
  rewrite (DeduplicateExpression_grouped _ _ (live_active _ _ Hall)). simpl.
  pose proof (grouped_Forall _ handles [] Hall (Forall_nil_2 _)) as Hgroups.
  destruct (grouped handles []) as [|entry entries] eqn:Hg; [eauto|].
  unfold Dispatch. apply for_each_invariant; [done|].
  intros e t He Ht. apply dispatch_one_invariant; [|done].
  rewrite iteration_order_perm in He.
  by apply (proj1 (Forall_forall _ _) Hgroups).
Qed.

End Step.

Lemma RunRecursive_at_invariant (n : nat) (variant : RedfishVariant)
    (handles : list SubqueryHandle) (st : ExecState) :
  Forall (live (S n)) handles → I st →
  ∃ st', RunRecursive_at n variant handles st = Done st' ∧ I st'.
Proof.
  revert variant handles st. induction n as [|n IH]; intros variant handles st Hall Hst;
    rewrite RunRecursive_at_unfold.
  all: eapply RunRecursive_step_invariant; [|exact Hall|exact Hst].
  - intros var [|h q] st' Hq Hact _; [done|].
    apply Forall_cons in Hact as [[Hh _] _]. by apply active_zero in Hh.
  - intros var q st' _ Hact Hst'. by apply IH.
Qed.

End Invariant.

Lemma evaluations_in_range_log_request (var : RedfishVariant) (node : string)
    (st : ExecState) :
  evaluations_in_range st → evaluations_in_range (log (Request var node) st).
Proof.
  unfold evaluations_in_range. simpl. rewrite evaluated_app. simpl.
  by rewrite app_nil_r.
Qed.

Lemma evaluations_in_range_log_evaluate (h : SubqueryHandle) (var : RedfishVariant)
    (st : ExecState) :
  is_redpath_valid_ h = true → in_range h →
  evaluations_in_range st → evaluations_in_range (log (Evaluate h var) st).
Proof.
  unfold evaluations_in_range, in_range. intros Hv Hr Hst. simpl.
  rewrite evaluated_app. apply Forall_app. split; [done|].
  repeat constructor; simpl; [done|lia|done].
Qed.

Lemma evaluations_in_range_emit (var : RedfishVariant) (h : SubqueryHandle)
    (st : ExecState) :
  evaluations_in_range st → evaluations_in_range (emit var h st).
Proof. unfold evaluations_in_range. by rewrite trace_emit. Qed.

(** The walker completes on active handles, and every evaluation it makes
    is on a cursor in range. *)
Lemma RunRecursive_at_total (n : nat) (variant : RedfishVariant)
    (handles : list SubqueryHandle) (st : ExecState) :
  Forall (active (S n)) handles → evaluations_in_range st →
  ∃ st', RunRecursive_at n variant handles st = Done st' ∧ evaluations_in_range st'.
Proof.
  intros Hall. eapply RunRecursive_at_invariant with (P := fun _ => True); try done.
  - apply evaluations_in_range_log_request.
  - intros h var st' Hv Hr _. by apply evaluations_in_range_log_evaluate.
  - intros var h st' _. apply evaluations_in_range_emit.
  - eapply Forall_impl; [exact Hall|]. by intros h Hh.
Qed.

Lemma QualifyEachSubquery_total (n : nat) (var : RedfishVariant)
    (handles : list SubqueryHandle) (st : ExecState) :
  Forall (active (S n)) handles → evaluations_in_range st →
  ∃ st', QualifyEachSubquery (descend n) var handles st = Done st' ∧
         evaluations_in_range st'.
Proof.
  intros Hall.
  eapply QualifyEachSubquery_invariant with (P := fun _ => True) (n := n); try done.
  - intros h var' st' Hv Hr _. by apply evaluations_in_range_log_evaluate.
  - intros var' h st' _. apply evaluations_in_range_emit.
  - intros var' q st' Hq Hact Hst'. destruct n as [|n]; simpl.
    + destruct q as [|h q]; [done|].
      apply Forall_cons in Hact as [[Hh%active_zero _] _]. done.
    + apply RunRecursive_at_total; [|done].
      eapply Forall_impl; [exact Hact|]. by intros h [Hh _].
  - eapply Forall_impl; [exact Hall|]. by intros h Hh.
Qed.

Lemma steps_ahead_le_depth (handles : list SubqueryHandle) (h : SubqueryHandle) :
  h ∈ handles → (steps_ahead h ≤ redpath_depth handles)%nat.
Proof.
  unfold redpath_depth. induction 1 as [h hs|h h' hs _ IH]; rewrite fmap_cons; simpl; lia.
Qed.

(** [RunRecursive] gives the walker enough depth. *)
Lemma RunRecursive_fuel_enough (variant : RedfishVariant)
    (handles : list SubqueryHandle) (st : ExecState) :
  Forall (fun h => is_redpath_valid_ h = true ∧ in_range h) handles →
  evaluations_in_range st →
  ∃ st', RunRecursive variant handles st = Done st' ∧ evaluations_in_range st'.
Proof.
  intros Hall Hst. apply RunRecursive_at_total; [|done].
  apply Forall_forall. intros h Hh.
  destruct (proj1 (Forall_forall _ _) Hall h Hh) as [Hv Hr].
  pose proof (steps_ahead_le_depth handles h Hh). repeat split; [done..|lia].
Qed.

End Completion.

(** ** The walker only appends *)

Section Frame.

Context `{Collaborators}.

Lemma lookup_merge_output (m d : gmap string (list SubqueryDataSet)) (id : string) :
  merge_output m d !! id
  = match m !! id, d !! id with
    | Some a, Some b => Some (a ++ b)
    | Some a, None => Some a
    | None, o => o
    end.
Proof.
  unfold merge_output. rewrite lookup_union_with.
  by destruct (m !! id), (d !! id).
Qed.

Lemma merge_output_assoc (a b c : gmap string (list SubqueryDataSet)) :
  merge_output (merge_output a b) c = merge_output a (merge_output b c).
Proof.
  apply map_eq. intros id. rewrite !lookup_merge_output.
  destruct (a !! id), (b !! id), (c !! id); simpl; try done.
  by rewrite List.app_assoc.
Qed.

Lemma merge_output_empty_r (m : gmap string (list SubqueryDataSet)) :
  merge_output m ∅ = m.
Proof.
  apply map_eq. intros id. rewrite lookup_merge_output, lookup_empty.
  by destruct (m !! id).
Qed.

Lemma merge_output_empty_l (d : gmap string (list SubqueryDataSet)) :
  merge_output ∅ d = d.
Proof.
  apply map_eq. intros id. by rewrite lookup_merge_output, lookup_empty.
Qed.

Lemma add_data_set_merge (id : string) (data : SubqueryDataSet)
    (m d : gmap string (list SubqueryDataSet)) :
  add_data_set id data (merge_output m d) = merge_output m (add_data_set id data d).
Proof.
  apply map_eq. intros i. unfold add_data_set.
  rewrite (lookup_merge_output m (<[id:=_]> d)).
  destruct (decide (id = i)) as [->|Hne].
  - rewrite !lookup_insert_eq, lookup_merge_output.
    destruct (m !! i), (d !! i); simpl; try done. by rewrite List.app_assoc.
  - rewrite !lookup_insert_ne by done. by rewrite lookup_merge_output.
Qed.

Lemma extend_assoc (a b c : ExecState) :
  extend (extend a b) c = extend a (extend b c).
Proof. unfold extend. simpl. by rewrite merge_output_assoc, <- List.app_assoc. Qed.

Lemma extend_initial (st : ExecState) : extend st initial_state = st.
Proof.
  unfold extend. simpl. rewrite merge_output_empty_r, app_nil_r.
  by destruct st as [[] ?].
Qed.

Lemma log_extend (ev : Event) (st d : ExecState) :
  log ev (extend st d) = extend st (log ev d).
Proof. unfold log, extend. simpl. by rewrite List.app_assoc. Qed.

Lemma emit_extend (var : RedfishVariant) (h : SubqueryHandle) (st d : ExecState) :
  emit var h (extend st d) = extend st (emit var h d).
Proof.
  unfold emit. destruct (Normalize var (GetSubquery h)); [|done].
  unfold with_output, extend. simpl. by rewrite add_data_set_merge.
Qed.

Lemma qualify_one_extend (var : RedfishVariant) (h : SubqueryHandle)
    (q : list SubqueryHandle) (st d : ExecState) :
  qualify_one var h (q, extend st d)
  = (fun acc => (acc.1, extend st acc.2)) <$> qualify_one var h (q, d).
Proof.
  unfold qualify_one. simpl. destruct (FilterNodeSet h var) as [[status h']| |]; [|done..].
  simpl. rewrite log_extend. destruct status; simpl; try done.
  by rewrite emit_extend.
Qed.

Lemma qualify_loop_extend (var : RedfishVariant) (handles q : list SubqueryHandle)
    (st d : ExecState) :
  for_each (qualify_one var) handles (q, extend st d)
  = (fun acc => (acc.1, extend st acc.2)) <$> for_each (qualify_one var) handles (q, d).
Proof.
  revert q d. induction handles as [|h hs IH]; intros q d; simpl; [done|].
  rewrite qualify_one_extend.
  destruct (qualify_one var h (q, d)) as [[q' d']| |]; simpl; [|done..].
  apply IH.
Qed.

Lemma for_each_extend {A : Type} (body : A → ExecState → outcome ExecState)
    (xs : list A) (st d : ExecState) :
  (∀ x st d, body x (extend st d) = extend st <$> body x d) →
  for_each body xs (extend st d) = extend st <$> for_each body xs d.
Proof.
  intros Hbody. revert d. induction xs as [|x xs IH]; intros d; simpl; [done|].
  rewrite Hbody. destruct (body x d) as [d'| |]; simpl; [apply IH|done..].
Qed.

Section Step.

Variable run : RedfishVariant → list SubqueryHandle → ExecState → outcome ExecState.
Hypothesis run_framed : framed run.

Lemma QualifyEachSubquery_extend (var : RedfishVariant)
    (handles : list SubqueryHandle) (st d : ExecState) :
  QualifyEachSubquery run var handles (extend st d)
  = extend st <$> QualifyEachSubquery run var handles d.
Proof.
  unfold QualifyEachSubquery. rewrite qualify_loop_extend.
  destruct (for_each (qualify_one var) handles ([], d)) as [[q d']| |]; simpl; [|done..].
  destruct q; [done|]. apply run_framed.
Qed.

Lemma dispatch_one_extend (var : RedfishVariant)
    (entry : string * list SubqueryHandle) (st d : ExecState) :
  dispatch_one run var entry (extend st d)
  = extend st <$> dispatch_one run var entry d.
Proof.
  destruct entry as [resource_name handles]. simpl. rewrite log_extend.
  destruct (AsObject (Get var resource_name)); simpl; [|done].
  destruct (AsIterable (Get var resource_name)) as [collection|].
  - apply for_each_extend. intros member. apply QualifyEachSubquery_extend.
  - apply QualifyEachSubquery_extend.
Qed.

Lemma RunRecursive_step_extend : framed (RunRecursive_step run).
Proof.
  intros variant handles st d. unfold RunRecursive_step.
  destruct (DeduplicateExpression handles) as [groups| |]; simpl; [|done..].
  destruct groups; [done|]. unfold Dispatch.
  apply for_each_extend. intros entry. apply dispatch_one_extend.
Qed.

End Step.

Lemma RunRecursive_at_framed (depth : nat) : framed (RunRecursive_at depth).
Proof.
  induction depth as [|depth IH]; rewrite RunRecursive_at_unfold;
    apply RunRecursive_step_extend; [done|apply IH].
Qed.

Lemma descend_framed (depth : nat) : framed (descend depth).
Proof. destruct depth; [done|apply RunRecursive_at_framed]. Qed.

(** A run from any state is the run from the initial state, appended. *)
Lemma RunRecursive_at_from_initial (depth : nat) (variant : RedfishVariant)
    (handles : list SubqueryHandle) (st : ExecState) :
  RunRecursive_at depth variant handles st
  = extend st <$> RunRecursive_at depth variant handles initial_state.
Proof. by rewrite <- RunRecursive_at_framed, extend_initial. Qed.

End Frame.

(** ** The planner's handles *)

Section PlannerFacts.

Context `{Collaborators}.

Lemma step_rejected_not_accepted (step_expression : string) :
  step_rejected step_expression ↔ ¬ step_accepted step_expression.
Proof.
  unfold step_rejected, step_accepted. split.
  - intros [Hnone|(node & predicate & Hsome & Hne)] [node' Hacc]; congruence.
  - intros Hnot. destruct (GetNodeAndPredicate step_expression) as [[node predicate]|];
      [|by left]. right. exists node, predicate. split; [done|].
    intros ->. apply Hnot. by exists node.
Qed.

Lemma compilation_fails_invalid (sq : Subquery) :
  compilation_fails sq ↔ is_redpath_valid_ (SubqueryHandle_ctor sq) = false.
Proof.
  unfold compilation_fails. rewrite <- not_true_iff_false, SubqueryHandle_ctor_valid.
  rewrite <- Exists_Forall_neg.
  - split; intros Hex; eapply Exists_impl; try exact Hex;
      intros step_expression; apply step_rejected_not_accepted.
  - intros step_expression. unfold step_accepted.
    destruct (GetNodeAndPredicate step_expression) as [[node predicate]|].
    + destruct (decide (predicate = kPredicateSelectAll)) as [->|Hne].
      * left. by exists node.
      * right. intros [node' Heq]. congruence.
    + right. by intros [node' Heq].
Qed.

Lemma keep_if_valid_invalid (sq : Subquery) (handles : list SubqueryHandle) :
  is_redpath_valid_ (SubqueryHandle_ctor sq) = false →
  keep_if_valid sq handles = Done handles.
Proof. intros Hv. unfold keep_if_valid, NextNodeInRedpath. by rewrite Hv. Qed.

Lemma keep_if_valid_Done (sq : Subquery) (handles handles' : list SubqueryHandle) :
  keep_if_valid sq handles = Done handles' →
  handles' = handles ++ List.filter is_redpath_valid_ [SubqueryHandle_ctor sq] ∧
  (is_redpath_valid_ (SubqueryHandle_ctor sq) = true → in_range (SubqueryHandle_ctor sq)).
Proof.
  unfold keep_if_valid, NextNodeInRedpath. simpl.
  destruct (is_redpath_valid_ (SubqueryHandle_ctor sq)); simpl.
  - destruct (deref (SubqueryHandle_ctor sq)) as [step| |] eqn:Hd; simpl; [|done..].
    intros [= <-]. split; [done|]. intros _. by eapply deref_Done.
  - intros [= <-]. by rewrite app_nil_r.
Qed.

Lemma keep_valid_loop (subqueries : list Subquery) (acc handles : list SubqueryHandle) :
  for_each keep_if_valid subqueries acc = Done handles →
  handles = acc ++ List.filter is_redpath_valid_ (SubqueryHandle_ctor <$> subqueries) ∧
  Forall in_range (List.filter is_redpath_valid_ (SubqueryHandle_ctor <$> subqueries)).
Proof.
  revert acc. induction subqueries as [|sq sqs IH]; intros acc; simpl.
  - intros [= <-]. by rewrite app_nil_r.
  - destruct (keep_if_valid sq acc) as [acc'| |] eqn:Hk; simpl; [|done..].
    intros Hrest. apply keep_if_valid_Done in Hk as [-> Hr].
    apply IH in Hrest as [-> Hall]. simpl in *.
    destruct (is_redpath_valid_ (SubqueryHandle_ctor sq)).
    + rewrite <- List.app_assoc. split; [done|]. constructor; [by apply Hr|done].
    + by rewrite app_nil_r.
Qed.

(** What the constructor builds: the valid handles, in the order of the
    subqueries, each with its cursor on its first step. *)
Lemma QueryPlanner_ctor_Done (query : DelliciusQuery) (qp : QueryPlanner) :
  QueryPlanner_ctor query = Done qp →
  plan_id_ qp = query_id query ∧
  subquery_handles_ qp
  = List.filter is_redpath_valid_ (SubqueryHandle_ctor <$> subquery query) ∧
  Forall (fun h => is_redpath_valid_ h = true ∧ in_range h) (subquery_handles_ qp).
Proof.
  unfold QueryPlanner_ctor.
  destruct (for_each keep_if_valid (subquery query) []) as [handles| |] eqn:Hloop;
    simpl; [|done..].
  intros [= <-]. simpl. apply keep_valid_loop in Hloop as [-> Hall]. simpl.
  repeat split. apply Forall_forall. intros h Hh. split.
  - apply list_elem_of_In, List.filter_In in Hh. tauto.
  - by apply (proj1 (Forall_forall _ _) Hall).
Qed.


End PlannerFacts.

(** ** Running a planner *)

Section RunFacts.

Context `{Collaborators}.

Lemma trace_set_end_timestamp (t : option Timestamp) (st : ExecState) :
  trace (set_end_timestamp t st) = trace st.
Proof. by destruct t. Qed.

Lemma trace_set_start_timestamp (t : option Timestamp) (st : ExecState) :
  trace (set_start_timestamp t st) = trace st.
Proof. by destruct t. Qed.

(** [Run] completes on the handles a planner holds; what it adds to the
    records and to the trace is what the walker does from the initial
    state, whatever the clock reads. *)
Lemma Run_Done (qp : QueryPlanner) (variant : RedfishVariant) (clock : Clock) :
  Forall (fun h => is_redpath_valid_ h = true ∧ in_range h) (subquery_handles_ qp) →
  ∃ d, RunRecursive variant (subquery_handles_ qp) initial_state = Done d ∧
       evaluations_in_range d ∧
       ∃ st clock',
         Run qp variant clock initial_state = Done (st, clock') ∧
         query_ids (result st) = [plan_id_ qp] ∧
         subquery_output_by_id (result st) = subquery_output_by_id (result d) ∧
         trace st = trace d.
Proof.
  intros Hall.
  destruct (RunRecursive_fuel_enough variant _ initial_state Hall) as (d & Hd & Hin);
    [constructor|].
  exists d. split; [done|]. split; [done|].
  unfold Run. destruct (Now clock) as [now1 clock1].
  unfold RunRecursive in *. rewrite RunRecursive_at_from_initial, Hd. simpl.
  destruct (Now clock1) as [now2 clock2]. eexists _, _. split; [done|].
  destruct (AbslTimeToProtoTime now1), (AbslTimeToProtoTime now2); simpl;
    by rewrite merge_output_empty_l.
Qed.

End RunFacts.

(** C6. A valid handle with a non-empty step list starts on its first step;
    on every handle in range [FilterNodeSet] completes and leaves the cursor
    where it was or one step further, still inside the step list; and a run of
    a planner holding such handles completes with every evaluation of
    [FilterNodeSet] made on a cursor [0 <= iter_ < number of steps]. *)
Theorem cursor_stays_on_path `{Collaborators} (qp : QueryPlanner)
    (variant : RedfishVariant) (clock : Clock) :
  Forall (fun h => is_redpath_valid_ h = true ∧ steps_in_redpath_ h ≠ [] ∧ iter_ h = O)
         (subquery_handles_ qp) →
  (∃ st clock', Run qp variant clock initial_state = Done (st, clock') ∧
                evaluations_in_range st) ∧
  (∀ h var, in_range h →
     ∃ status h', FilterNodeSet h var = Done (status, h') ∧
       steps_in_redpath_ h' = steps_in_redpath_ h ∧
       (iter_ h' = iter_ h ∨ iter_ h' = S (iter_ h)) ∧
       (iter_ h' < List.length (steps_in_redpath_ h'))%nat).
Proof.
  intros Hall. split.
  - destruct (Run_Done qp variant clock) as (d & _ & Hin & st & clock' & HRun & _ & _ & Htr).
    + eapply Forall_impl; [exact Hall|]. intros h (Hv & Hne & Hi). split; [done|].
      unfold in_range. rewrite Hi. destruct (steps_in_redpath_ h); [done|simpl; lia].
    + exists st, clock'. split; [done|]. unfold evaluations_in_range. by rewrite Htr.
  - intros h var Hr.
    destruct (FilterNodeSet_in_range h var Hr) as (status & h' & HF & Hr' & Hs & _ & _ & Hc & Hn).
    exists status, h'. repeat split; try done.
    destruct (decide (status = kContinue)) as [Heq|Hne].
    + right. by rewrite (Hc Heq).
    + left. by rewrite (Hn Hne).
Qed.



Lemma cursor_stays_on_path_witness :
  Forall (fun h => is_redpath_valid_ h = true ∧ steps_in_redpath_ h ≠ [] ∧ iter_ h = O)
         (subquery_handles_ (Mockup.planner_of [Mockup.name_of_chassis])) ∧
  ∃ st clock',
    Run (Mockup.planner_of [Mockup.name_of_chassis]) Mockup.service_root 5%nat initial_state
    = Done (st, clock') ∧ evaluations_in_range st.
Proof.
  assert (Forall (fun h => is_redpath_valid_ h = true ∧ steps_in_redpath_ h ≠ [] ∧ iter_ h = O)
            (subquery_handles_ (Mockup.planner_of [Mockup.name_of_chassis]))) as Hall.
  { repeat constructor. vm_compute. discriminate. }
  split; [exact Hall|].
  exact (proj1 (cursor_stays_on_path
                  (Mockup.planner_of [Mockup.name_of_chassis]) Mockup.service_root 5%nat Hall)).
Defined.



(** ** Where the code leaves its design *)

Section LastStep.

Context `{Collaborators}.

(** [FilterNodeSet] ends a redpath on the name of the step, not on its
    position: with an accepting predicate, the status is [kEndOfRedpath]
    exactly when the node under the cursor has the name of the last step. *)
Lemma end_of_redpath_iff_last_name (h : SubqueryHandle) (var : RedfishVariant)
    (step back : Step) :
  steps_in_redpath_ h !! iter_ h = Some step →
  last (steps_in_redpath_ h) = Some back →
  step.2 var = true →
  (verdict h var = kEndOfRedpath ↔ step.1 = back.1) ∧
  (verdict h var = kContinue ↔ step.1 ≠ back.1).
Proof.
  intros Hl Hback Hacc. unfold verdict, names_last_step. rewrite Hl, Hback, Hacc. simpl.
  destruct (decide (step.1 = back.1)) as [Heq|Hne].
  - rewrite bool_decide_eq_true_2 by done. by split.
  - rewrite bool_decide_eq_false_2 by done. by split.
Qed.

(** When no two steps of the redpath share a node name, the name test is
    the position test. *)
Lemma end_of_redpath_iff_last_step (h : SubqueryHandle) (var : RedfishVariant)
    (step : Step) :
  NoDup (steps_in_redpath_ h).*1 →
  steps_in_redpath_ h !! iter_ h = Some step →
  step.2 var = true →
  (verdict h var = kEndOfRedpath ↔ at_last_step h) ∧
  (verdict h var = kContinue ↔ ¬ at_last_step h).
Proof.
  intros Hnd Hl Hacc. pose proof (lookup_lt_Some _ _ _ Hl) as Hlt.
  destruct (last (steps_in_redpath_ h)) as [back|] eqn:Hback.
  2:{ apply last_None in Hback. rewrite Hback in Hlt. simpl in Hlt. lia. }
  destruct (end_of_redpath_iff_last_name h var step back Hl Hback Hacc) as [He Hc].
  rewrite last_lookup in Hback.
  assert (step.1 = back.1 ↔ at_last_step h) as Hpos.
  { unfold at_last_step. split.
    - intros Heq.
      assert ((steps_in_redpath_ h).*1 !! iter_ h = Some step.1) as H1
        by (by rewrite list_lookup_fmap, Hl).
      assert ((steps_in_redpath_ h).*1 !! pred (List.length (steps_in_redpath_ h))
              = Some step.1) as H2
        by (by rewrite list_lookup_fmap, Hback, Heq).
      pose proof (NoDup_lookup _ _ _ _ Hnd H1 H2). lia.
    - intros Hlast. rewrite <- Hlast in Hback. simpl in Hback. congruence. }
  rewrite He, Hc. by rewrite Hpos.
Qed.

End LastStep.

(** C1 (the code departs from it).  The handle of
    [/Chassis[*]/Links[*]/Chassis[*]] is valid and has three steps; with its
    cursor on the first of them [FilterNodeSet] already returns
    [kEndOfRedpath], because that step and the last one name the same node.
    The run then records the outer chassis after a single request and never
    looks at [Links]. *)
Theorem end_of_redpath_before_last_step :
  let h := SubqueryHandle_ctor Mockup.chassis_of_links in
  is_redpath_valid_ h = true ∧
  (steps_in_redpath_ h).*1 = ["Chassis"; "Links"; "Chassis"] ∧
  iter_ h = O ∧
  ¬ at_last_step h ∧
  FilterNodeSet h Mockup.chassis = Done (kEndOfRedpath, h) ∧
  ∃ st clock',
    execute (Mockup.query_of [Mockup.chassis_of_links]) Mockup.service_root 5%nat
    = Done (st, clock') ∧
    records_of "S1" st = [[("Name", "chassis")]] ∧
    requested (trace st) = [(Mockup.service_root, "Chassis")].
Proof.
  repeat split; try (vm_compute; reflexivity).
  - vm_compute. discriminate.
  - eexists _, _. split; [vm_compute; reflexivity|]. split; vm_compute; reflexivity.
Qed.

(** C2 (the code departs from it).  In the step [Chassis][*] the first
    closing bracket comes before the first opening bracket, yet
    [GetNodeAndPredicate] returns a node and the predicate [*]: the length
    [predicate_end - predicate_start - 1] wraps around and [substr] takes the
    rest of the step.  The handle is valid and the planner keeps it. *)
Theorem reversed_brackets_are_accepted :
  (StringView.find_first_of "Chassis][*" "]"%char
   < StringView.find_first_of "Chassis][*" "["%char)%Z ∧
  GetNodeAndPredicate "Chassis][*" = Some ("Chassis]", "*") ∧
  is_redpath_valid_ (SubqueryHandle_ctor Mockup.reversed_brackets) = true ∧
  QueryPlanner_ctor (Mockup.query_of [Mockup.reversed_brackets])
  = Done {| plan_id_ := "Q1";
            subquery_handles_ := [SubqueryHandle_ctor Mockup.reversed_brackets] |}.
Proof. repeat split; vm_compute; reflexivity. Qed.

(** C10 (the code departs from it).  A redpath that splits into no step
    gives a handle that is marked valid over an empty step list, and the
    first read of its current step, made by [NextNodeInRedpath] in the
    constructor of the planner, is outside the list. *)
Theorem empty_redpath_is_read_out_of_range :
  Forall (fun sq =>
            let h := SubqueryHandle_ctor sq in
            is_redpath_valid_ h = true ∧
            steps_in_redpath_ h = [] ∧
            NextNodeInRedpath h = InvalidRead ∧
            FilterNodeSet h Mockup.service_root = InvalidRead ∧
            QueryPlanner_ctor (Mockup.query_of [sq]) = InvalidRead ∧
            QueryPlanner_ctor (Mockup.query_of [Mockup.name_of_chassis; sq]) = InvalidRead)
         [Mockup.empty_redpath; Mockup.separator_only].
Proof. repeat constructor; vm_compute; reflexivity. Qed.

(** ** Grouping by node name *)

Section Grouping.

Context `{Collaborators}.

Lemma push_back_at_keys (node : string) (h : SubqueryHandle) (m : NodeToSubqueryHandles) :
  (push_back_at node h m).*1
  = m.*1 ++ (if decide (node ∈ m.*1) then [] else [node]).
Proof.
  induction m as [|[key g] m IH].
  - cbn [push_back_at fmap list_fmap app]. case_decide as Hin; [|done].
    by apply elem_of_nil in Hin.
  - cbn [push_back_at]. destruct (decide (key = node)) as [->|Hne].
    + clear IH. rewrite !fmap_cons. cbn [fst]. case_decide as Hin; [by rewrite app_nil_r|].
      exfalso. apply Hin. by left.
    + rewrite !fmap_cons, IH. clear IH. cbn [fst]. rewrite <- app_comm_cons. f_equal. f_equal.
      destruct (decide (node ∈ m.*1)) as [Hin|Hnin];
        destruct (decide (node ∈ key :: m.*1)) as [Hin'|Hnin']; try done.
      * exfalso. apply Hnin'. by right.
      * exfalso. apply elem_of_cons in Hin' as [->|Hin']; done.
Qed.

Lemma grouped_keys (handles : list SubqueryHandle) (m : NodeToSubqueryHandles) :
  NoDup m.*1 →
  NoDup (grouped handles m).*1 ∧
  ∀ node, node ∈ (grouped handles m).*1 ↔ node ∈ m.*1 ∨ node ∈ node_of <$> handles.
Proof.
  revert m. induction handles as [|h hs IH]; intros m Hnd; simpl.
  - split; [done|]. intros node. rewrite elem_of_nil. tauto.
  - destruct (IH (push_back_at (node_of h) h m)) as [Hnd' Hin].
    + rewrite push_back_at_keys. destruct (decide (node_of h ∈ m.*1)).
      * by rewrite app_nil_r.
      * apply NoDup_app. repeat split; [done| |apply NoDup_singleton].
        intros x Hx ->%list_elem_of_singleton. done.
    + split; [done|]. intros node. rewrite Hin, push_back_at_keys.
      rewrite elem_of_app, elem_of_cons.
      destruct (decide (node_of h ∈ m.*1)) as [Hm|Hm].
      * rewrite elem_of_nil. split; [tauto|]. intros [?|[->|?]]; tauto.
      * rewrite list_elem_of_singleton. tauto.
Qed.


End Grouping.

(** ** One request per node name *)

Section Requests.

Context `{Collaborators}.



Section Step.

Variable run : RedfishVariant → list SubqueryHandle → ExecState → outcome ExecState.

(** The continuation asks nothing of the resource view itself. *)
Hypothesis run_silent :
  ∀ var q s s', run var q s = Done s' → requested (trace s') = requested (trace s).



End Step.

End Requests.



(** ** Branches of a dispatch *)

Section Branches.

Context `{Collaborators}.

Lemma evaluations_in_range_initial : evaluations_in_range initial_state.
Proof. constructor. Qed.

(** One call of [QualifyEachSubquery] appends a branch that depends on the
    resource and on the handles it is given only, and the branch starts with
    the evaluation of exactly these handles. *)
Lemma QualifyEachSubquery_branch (depth : nat) (var : RedfishVariant)
    (handles : list SubqueryHandle) :
  Forall (active (S depth)) handles →
  ∃ d, QualifyEachSubquery (descend depth) var handles initial_state = Done d ∧
       (∃ tail, trace d = ((fun h => Evaluate h var) <$> handles) ++ tail) ∧
       ∀ st, QualifyEachSubquery (descend depth) var handles st = Done (extend st d).
Proof.
  intros Hall.
  destruct (QualifyEachSubquery_total depth var handles initial_state)
    as (d & Hd & _); [done|apply evaluations_in_range_initial|].
  exists d. split; [done|]. split.
  - rewrite QualifyEachSubquery_closed in Hd
      by (eapply Forall_impl; [done|apply active_in_range]).
    pose proof (trace_qualified_state var handles initial_state) as Htr. simpl in Htr.
    destruct (survivors var handles) as [|h' q'].
    + injection Hd as <-. exists []. by rewrite app_nil_r.
    + rewrite <- (extend_initial (qualified_state _ _ _)), descend_framed in Hd.
      destruct (descend depth var (h' :: q') initial_state) as [d'| |]; [|done..].
      injection Hd as <-. exists (trace d'). simpl. by rewrite Htr.
  - intros st. rewrite <- (extend_initial st) at 1.
    rewrite QualifyEachSubquery_extend by apply descend_framed. by rewrite Hd.
Qed.

Lemma members_branches (depth : nat) (handles : list SubqueryHandle)
    (collection : list RedfishVariant) (st : ExecState) :
  Forall (active (S depth)) handles →
  ∃ branches : list ExecState,
    Forall2 (fun member d =>
               QualifyEachSubquery (descend depth) member handles initial_state = Done d ∧
               ∃ tail, trace d = ((fun h => Evaluate h member) <$> handles) ++ tail)
            collection branches ∧
    for_each (fun member => QualifyEachSubquery (descend depth) member handles) collection st
    = Done (foldl extend st branches).
Proof.
  intros Hall. revert st. induction collection as [|member ms IH]; intros st.
  - exists []. by split; [constructor|].
  - destruct (QualifyEachSubquery_branch depth member handles Hall) as (d & Hd & Htr & Hst).
    destruct (IH (extend st d)) as (ds & Hds & Hloop).
    exists (d :: ds). split; [by constructor|]. simpl. by rewrite Hst.
Qed.

Lemma trace_foldl_extend (st : ExecState) (branches : list ExecState) :
  trace (foldl extend st branches) = trace st ++ List.concat (trace <$> branches).
Proof.
  revert st. induction branches as [|d ds IH]; intros st; simpl.
  - by rewrite app_nil_r.
  - rewrite IH. simpl. by rewrite List.app_assoc.
Qed.

End Branches.

(** C5. When the child is a collection, every member is qualified in a
    branch of its own: the branch is what [QualifyEachSubquery] does for that
    member alone, from the initial state, with the handles exactly as they
    stood when the collection was entered; it begins by evaluating these
    handles, cursors unchanged; and the dispatch is the request followed by
    the branches in the order of the members.  Nothing a branch does to its
    handles reaches a sibling. *)
Theorem sibling_branches_are_independent `{Collaborators} (depth : nat)
    (var : RedfishVariant) (node : string) (handles : list SubqueryHandle)
    (collection : list RedfishVariant) (st : ExecState) :
  Forall (active (S depth)) handles →
  AsObject (Get var node) = true →
  AsIterable (Get var node) = Some collection →
  ∃ branches : list ExecState,
    Forall2 (fun member d =>
               QualifyEachSubquery (descend depth) member handles initial_state = Done d ∧
               ∃ tail, trace d = ((fun h => Evaluate h member) <$> handles) ++ tail)
            collection branches ∧
    dispatch_one (descend depth) var (node, handles) st
    = Done (foldl extend (log (Request var node) st) branches).
Proof.
  intros Hall Hobj Hiter. simpl. rewrite Hobj, Hiter. simpl.
  by apply members_branches.
Qed.

(** C4, as the code has it.  A dispatch completes, and the child
    [var[node]] decides what is qualified: a child that is no object is
    skipped, iterable or not, with nothing evaluated and nothing recorded; for
    an object that is iterable every member is evaluated against every handle
    of the group; for an object that is not iterable the child itself is. *)
Theorem dispatch_by_shape `{Collaborators} (depth : nat) (var : RedfishVariant)
    (node : string) (handles : list SubqueryHandle) (st : ExecState) :
  Forall (active (S depth)) handles →
  ∃ st', dispatch_one (descend depth) var (node, handles) st = Done st' ∧
    match AsObject (Get var node), AsIterable (Get var node) with
    | false, _ => st' = log (Request var node) st
    | true, Some collection =>
        ∀ member h, member ∈ collection → h ∈ handles →
                    (h, member) ∈ evaluated (trace st')
    | true, None =>
        ∀ h, h ∈ handles → (h, Get var node) ∈ evaluated (trace st')
    end.
Proof.
  intros Hall. simpl.
  destruct (AsObject (Get var node)) eqn:Hobj; simpl; [|eauto].
  destruct (AsIterable (Get var node)) as [collection|] eqn:Hiter.
  - destruct (members_branches depth handles collection (log (Request var node) st) Hall)
      as (branches & Hbr & ->).
    eexists. split; [done|]. intros member h Hm Hh.
    rewrite trace_foldl_extend, evaluated_app. apply elem_of_app. right.
    clear -Hbr Hm Hh. induction Hbr as [|m d ms ds [_ [tail Htr]] _ IH]; [by apply elem_of_nil in Hm|].
    rewrite fmap_cons. simpl. rewrite evaluated_app. apply elem_of_app.
    apply elem_of_cons in Hm as [->|Hm]; [left|right; by apply IH].
    rewrite Htr, evaluated_app. apply elem_of_app. left.
    clear -Hh. induction Hh as [h hs|h h' hs _ IH]; rewrite fmap_cons; simpl.
    + by left.
    + by right.
  - destruct (QualifyEachSubquery_branch depth (Get var node) handles Hall)
      as (d & _ & [tail Htr] & Hst).
    rewrite Hst. eexists. split; [done|]. intros h Hh. simpl.
    rewrite !evaluated_app, Htr, evaluated_app. apply elem_of_app. right.
    apply elem_of_app. left.
    clear -Hh. induction Hh as [h hs|h h' hs _ IH]; rewrite fmap_cons; simpl.
    + by left.
    + by right.
Qed.

Lemma sibling_branches_are_independent_witness :
  let handles := SubqueryHandle_ctor <$> [Mockup.name_of_chassis; Mockup.state_of_status] in
  let collection := [Mockup.chassis; Mockup.spare_chassis] in
  Forall (active 2) handles ∧
  AsObject (Get Mockup.two_chassis_root "Chassis") = true ∧
  AsIterable (Get Mockup.two_chassis_root "Chassis") = Some collection ∧
  ∃ branches : list ExecState,
    Forall2 (fun member d =>
               QualifyEachSubquery (descend 1) member handles initial_state = Done d ∧
               ∃ tail, trace d = ((fun h => Evaluate h member) <$> handles) ++ tail)
            collection branches ∧
    dispatch_one (descend 1) Mockup.two_chassis_root ("Chassis", handles) initial_state
    = Done (foldl extend (log (Request Mockup.two_chassis_root "Chassis") initial_state)
                  branches).
Proof.
  intros handles collection.
  assert (Forall (active 2) handles) as Hall.
  { repeat constructor; vm_compute; lia. }
  assert (AsObject (Get Mockup.two_chassis_root "Chassis") = true) as Hobj
    by (vm_compute; reflexivity).
  assert (AsIterable (Get Mockup.two_chassis_root "Chassis") = Some collection) as Hiter
    by (vm_compute; reflexivity).
  split; [exact Hall|]. split; [exact Hobj|]. split; [exact Hiter|].
  exact (sibling_branches_are_independent 1 Mockup.two_chassis_root "Chassis" handles
           collection initial_state Hall Hobj Hiter).
Defined.

Lemma dispatch_by_shape_witness :
  let handles := SubqueryHandle_ctor <$> [Mockup.name_of_chassis; Mockup.state_of_status] in
  Forall (active 2) handles ∧
  ∃ st', dispatch_one (descend 1) Mockup.two_chassis_root ("Chassis", handles) initial_state
         = Done st' ∧
    match AsObject (Get Mockup.two_chassis_root "Chassis"),
          AsIterable (Get Mockup.two_chassis_root "Chassis") with
    | false, _ => st' = log (Request Mockup.two_chassis_root "Chassis") initial_state
    | true, Some collection =>
        ∀ member h, member ∈ collection → h ∈ handles →
                    (h, member) ∈ evaluated (trace st')
    | true, None =>
        ∀ h, h ∈ handles →
             (h, Get Mockup.two_chassis_root "Chassis") ∈ evaluated (trace st')
    end.
Proof.
  intros handles.
  assert (Forall (active 2) handles) as Hall.
  { repeat constructor; vm_compute; lia. }
  split; [exact Hall|].
  exact (dispatch_by_shape 1 Mockup.two_chassis_root "Chassis" handles initial_state Hall).
Defined.

(** C4, as the claim has it, fails on a child that is an array.  The child
    [Links] of the view is iterable and has one member, and it is no object:
    the dispatch skips it, so the member is not qualified against the handle
    of the group, and the run of [/Links[*]] records nothing. *)
Lemma iterable_array_is_skipped :
  let h := SubqueryHandle_ctor Mockup.links_members in
  let child := Get Mockup.links_array "Links" in
  AsObject child = false ∧
  AsIterable child = Some [Mockup.chassis] ∧
  (∃ st', dispatch_one (descend 0) Mockup.links_array ("Links", [h]) initial_state = Done st' ∧
          evaluated (trace st') = [] ∧
          ¬ (∀ member, member ∈ [Mockup.chassis] → (h, member) ∈ evaluated (trace st'))) ∧
  ∃ st clock',
    execute (Mockup.query_of [Mockup.links_members]) Mockup.links_array 5%nat = Done (st, clock') ∧
    subquery_output_by_id (result st) = ∅.
Proof.
  split; [vm_compute; reflexivity|]. split; [vm_compute; reflexivity|]. split.
  - eexists. split; [vm_compute; reflexivity|]. split; [vm_compute; reflexivity|].
    intros Hall. specialize (Hall Mockup.chassis (list_elem_of_here _ _)).
    vm_compute in Hall. by apply elem_of_nil in Hall.
  - eexists _, _. split; [vm_compute; reflexivity|]. vm_compute. reflexivity.
Qed.

(** ** Counting records *)

Section Yield.

Context `{Collaborators}.
Variable id : string.

Lemma record_count_initial : record_count id initial_state = O.
Proof. unfold record_count, records_of. simpl. by rewrite lookup_empty. Qed.

Lemma records_of_extend (st d : ExecState) :
  records_of id (extend st d) = records_of id st ++ records_of id d.
Proof.
  unfold records_of, extend. simpl. rewrite lookup_merge_output.
  destruct (_ !! id), (_ !! id); simpl; by rewrite ?app_nil_r.
Qed.

Lemma record_count_extend (st d : ExecState) :
  record_count id (extend st d) = (record_count id st + record_count id d)%nat.
Proof. unfold record_count. by rewrite records_of_extend, length_app. Qed.

Lemma record_count_foldl_extend (st : ExecState) (branches : list ExecState) :
  record_count id (foldl extend st branches)
  = (record_count id st + sum_list_with (record_count id) branches)%nat.
Proof.
  revert st. induction branches as [|d ds IH]; intros st; simpl; [lia|].
  rewrite IH, record_count_extend. lia.
Qed.

Lemma qualified_state_extend (var : RedfishVariant) (handles : list SubqueryHandle)
    (st d : ExecState) :
  qualified_state var handles (extend st d) = extend st (qualified_state var handles d).
Proof.
  revert d. induction handles as [|h hs IH]; intros d; [done|].
  change (qualified_state var (h :: hs) ?s)
    with (qualified_state var hs (qualified_state var [h] s)).
  rewrite <- IH. f_equal. unfold qualified_state. simpl. rewrite log_extend.
  destruct (verdict h var); try done. apply emit_extend.
Qed.

Lemma record_count_qualified_state (var : RedfishVariant) (g1 g2 : list SubqueryHandle) :
  record_count id (qualified_state var (g1 ++ g2) initial_state)
  = (record_count id (qualified_state var g1 initial_state)
     + record_count id (qualified_state var g2 initial_state))%nat.
Proof.
  rewrite qualified_state_app.
  rewrite <- (extend_initial (qualified_state var g1 initial_state)) at 1.
  by rewrite qualified_state_extend, record_count_extend.
Qed.

(** A computation that is framed and completes from the initial state
    appends what it did there to any state. *)
Lemma framed_appends (F : ExecState → outcome ExecState) (d : ExecState) :
  (∀ st d, F (extend st d) = extend st <$> F d) →
  F initial_state = Done d →
  ∀ st, F st = Done (extend st d).
Proof.
  intros HF Hd st. rewrite <- (extend_initial st) at 1. by rewrite HF, Hd.
Qed.

Lemma yield_appends (F : ExecState → outcome ExecState) (d st : ExecState) :
  (∀ st, F st = Done (extend st d)) →
  yield id (F st) = (record_count id st + yield id (F initial_state))%nat.
Proof.
  intros HF. rewrite !HF. simpl. rewrite !record_count_extend, record_count_initial. lia.
Qed.

(** The records of a loop are those of its rounds. *)
Lemma yield_for_each {A : Type} (body : A → ExecState → outcome ExecState)
    (xs : list A) (st : ExecState) :
  (∀ x, x ∈ xs → ∃ d, ∀ st, body x st = Done (extend st d)) →
  ∃ st', for_each body xs st = Done st' ∧
         record_count id st'
         = (record_count id st
            + sum_list_with (fun x => yield id (body x initial_state)) xs)%nat.
Proof.
  revert st. induction xs as [|x xs IH]; intros st Hbody; simpl.
  - exists st. split; [done|lia].
  - destruct (Hbody x) as [d Hd]; [by left|].
    pose proof (yield_appends (body x) d st Hd) as Hy. rewrite Hd in Hy |- *. simpl in *.
    destruct (IH (extend st d)) as (st' & Hloop & Hcount).
    + intros y Hy'. apply Hbody. by right.
    + exists st'. split; [done|]. rewrite Hcount, Hy. lia.
Qed.

End Yield.

(** ** The records of a run are those of its handles *)

Section Additivity.

Context `{Collaborators}.
Variable id : string.

Lemma sum_list_with_add {A : Type} (f g : A → nat) (xs : list A) :
  sum_list_with (fun x => (f x + g x)%nat) xs
  = (sum_list_with f xs + sum_list_with g xs)%nat.
Proof. induction xs as [|x xs IH]; simpl; lia. Qed.

Lemma sum_list_with_ext_in {A : Type} (f g : A → nat) (xs : list A) :
  (∀ x, x ∈ xs → f x = g x) → sum_list_with f xs = sum_list_with g xs.
Proof.
  induction xs as [|x xs IH]; intros Hfg; simpl; [done|].
  rewrite Hfg by (by left). rewrite IH; [done|]. intros y Hy. apply Hfg. by right.
Qed.

Lemma descend_appends (depth : nat) (var : RedfishVariant) (q : list SubqueryHandle) :
  q ≠ [] → Forall (active depth) q →
  ∃ d, ∀ st, descend depth var q st = Done (extend st d).
Proof.
  intros Hq Hall. destruct depth as [|depth].
  - destruct q as [|h q]; [done|]. apply Forall_cons in Hall as [Hh%active_zero _]. done.
  - destruct (RunRecursive_at_total depth var q initial_state Hall) as (d & Hd & _);
      [apply evaluations_in_range_initial|].
    exists d. apply framed_appends; [|done]. intros st d'. apply RunRecursive_at_framed.
Qed.

Section Level.

Variable n : nat.

(** The records of the recursion below this level are those of its
    handles. *)
Hypothesis descent_additive :
  ∀ var q1 q2, Forall (active n) (q1 ++ q2) →
    descent_yield id n var (q1 ++ q2)
    = (descent_yield id n var q1 + descent_yield id n var q2)%nat.

Lemma yield_QualifyEachSubquery (var : RedfishVariant) (g : list SubqueryHandle) :
  Forall (active (S n)) g →
  yield id (QualifyEachSubquery (descend n) var g initial_state)
  = (record_count id (qualified_state var g initial_state)
     + descent_yield id n var (survivors var g))%nat.
Proof.
  intros Hall.
  rewrite QualifyEachSubquery_closed by (eapply Forall_impl; [done|apply active_in_range]).
  pose proof (survivors_active n var g Hall) as Hq.
  destruct (survivors var g) as [|h' q'] eqn:Hs; [simpl; lia|].
  destruct (descend_appends n var (h' :: q')) as [d Hd]; [done..|].
  unfold descent_yield. by apply (yield_appends id _ d).
Qed.

Lemma yield_QualifyEachSubquery_app (var : RedfishVariant) (g1 g2 : list SubqueryHandle) :
  Forall (active (S n)) (g1 ++ g2) →
  yield id (QualifyEachSubquery (descend n) var (g1 ++ g2) initial_state)
  = (yield id (QualifyEachSubquery (descend n) var g1 initial_state)
     + yield id (QualifyEachSubquery (descend n) var g2 initial_state))%nat.
Proof.
  intros Hall. pose proof Hall as [H1 H2]%Forall_app.
  rewrite !yield_QualifyEachSubquery by done.
  rewrite record_count_qualified_state, survivors_app, descent_additive; [lia|].
  rewrite <- survivors_app. by apply survivors_active.
Qed.

Lemma QualifyEachSubquery_appends (var : RedfishVariant) (g : list SubqueryHandle) :
  Forall (active (S n)) g →
  ∃ d, ∀ st, QualifyEachSubquery (descend n) var g st = Done (extend st d).
Proof.
  intros Hall. destruct (QualifyEachSubquery_branch n var g Hall) as (d & _ & _ & Hd).
  by exists d.
Qed.

Lemma dispatch_one_appends (var : RedfishVariant) (entry : string * list SubqueryHandle) :
  Forall (active (S n)) entry.2 →
  ∃ d, ∀ st, dispatch_one (descend n) var entry st = Done (extend st d).
Proof.
  intros Hall.
  destruct (dispatch_one_invariant (fun _ => True) (fun _ => True)) with
    (n := n) (run := descend n) (var := var) (entry := entry) (st := initial_state)
    as (d & Hd & _); try done.
  - intros v q st Hq Hact _. destruct (descend_appends n v q) as [d Hd]; [done| |].
    + eapply Forall_impl; [exact Hact|]. by intros h [Hh _].
    + rewrite Hd. eauto.
  - eapply Forall_impl; [exact Hall|]. by intros h Hh.
  - exists d. apply framed_appends; [|done].
    intros st d'. apply dispatch_one_extend, descend_framed.
Qed.

(** The records a dispatch adds for a group. *)
Lemma yield_dispatch_one (var : RedfishVariant) (node : string) (g : list SubqueryHandle) :
  Forall (active (S n)) g →
  yield id (dispatch_one (descend n) var (node, g) initial_state)
  = if AsObject (Get var node) then
      match AsIterable (Get var node) with
      | Some collection =>
          sum_list_with
            (fun member => yield id (QualifyEachSubquery (descend n) member g initial_state))
            collection
      | None => yield id (QualifyEachSubquery (descend n) (Get var node) g initial_state)
      end
    else O.
Proof.
  intros Hall. simpl.
  assert (record_count id (log (Request var node) initial_state) = O) as Hlog
    by exact (record_count_initial id).
  destruct (AsObject (Get var node)); simpl; [|done].
  destruct (AsIterable (Get var node)) as [collection|].
  - destruct (yield_for_each id
                (fun member => QualifyEachSubquery (descend n) member g)
                collection (log (Request var node) initial_state))
      as (st' & -> & Hcount).
    + intros member _. by apply QualifyEachSubquery_appends.
    + simpl. rewrite Hcount, Hlog. lia.
  - destruct (QualifyEachSubquery_appends (Get var node) g Hall) as [d Hd].
    rewrite (yield_appends id _ d _ Hd), Hlog. lia.
Qed.

Lemma yield_dispatch_one_nil (var : RedfishVariant) (node : string) :
  yield id (dispatch_one (descend n) var (node, []) initial_state) = O.
Proof.
  rewrite yield_dispatch_one by constructor.
  destruct (AsObject (Get var node)); [|done].
  destruct (AsIterable (Get var node)) as [collection|].
  - induction collection as [|m ms IH]; [done|]. cbn [sum_list_with]. rewrite IH.
    cbn. by rewrite record_count_initial.
  - exact (record_count_initial id).
Qed.

Lemma yield_dispatch_one_app (var : RedfishVariant) (node : string)
    (g1 g2 : list SubqueryHandle) :
  Forall (active (S n)) (g1 ++ g2) →
  yield id (dispatch_one (descend n) var (node, g1 ++ g2) initial_state)
  = (yield id (dispatch_one (descend n) var (node, g1) initial_state)
     + yield id (dispatch_one (descend n) var (node, g2) initial_state))%nat.
Proof.
  intros Hall. pose proof Hall as [H1 H2]%Forall_app.
  rewrite !yield_dispatch_one by done.
  destruct (AsObject (Get var node)); [|done].
  destruct (AsIterable (Get var node)) as [collection|].
  - rewrite <- sum_list_with_add. apply sum_list_with_ext_in.
    intros member _. by apply yield_QualifyEachSubquery_app.
  - by apply yield_QualifyEachSubquery_app.
Qed.

End Level.

End Additivity.

Section RunAdditivity.

Context `{Collaborators}.
Variable id : string.

Section Level.

Variable n : nat.

Hypothesis descent_additive :
  ∀ var q1 q2, Forall (active n) (q1 ++ q2) →
    descent_yield id n var (q1 ++ q2)
    = (descent_yield id n var q1 + descent_yield id n var q2)%nat.

Lemma groups_yield_push_back (var : RedfishVariant) (node : string) (h : SubqueryHandle)
    (m : NodeToSubqueryHandles) :
  Forall (fun entry => Forall (active (S n)) entry.2) m → active (S n) h →
  groups_yield id n var (push_back_at node h m)
  = (groups_yield id n var m
     + yield id (dispatch_one (descend n) var (node, [h]) initial_state))%nat.
Proof.
  intros Hm Hh. induction Hm as [|[key g] m Hg Hm IH].
  - unfold groups_yield. cbn [push_back_at sum_list_with]. lia.
  - cbn [push_back_at]. destruct (decide (key = node)) as [->|Hne].
    + unfold groups_yield. cbn [sum_list_with].
      rewrite (yield_dispatch_one_app id n descent_additive).
      * lia.
      * apply Forall_app. split; [done|by constructor].
    + unfold groups_yield in *. cbn [sum_list_with]. rewrite IH. lia.
Qed.

Lemma groups_yield_grouped (var : RedfishVariant) (handles : list SubqueryHandle)
    (m : NodeToSubqueryHandles) :
  Forall (fun entry => Forall (active (S n)) entry.2) m →
  Forall (active (S n)) handles →
  groups_yield id n var (grouped handles m)
  = (groups_yield id n var m
     + sum_list_with
         (fun h => yield id (dispatch_one (descend n) var (node_of h, [h]) initial_state))
         handles)%nat.
Proof.
  intros Hm Hall. revert m Hm. induction Hall as [|h hs Hh _ IH]; intros m Hm.
  - simpl. lia.
  - cbn [grouped foldl]. fold (grouped hs (push_back_at (node_of h) h m)).
    rewrite IH by (by apply push_back_at_Forall).
    rewrite groups_yield_push_back by done. simpl. lia.
Qed.

(** The records of one step of the recursion are those its handles give
    one by one. *)
Lemma yield_RunRecursive_step (var : RedfishVariant) (handles : list SubqueryHandle) :
  Forall (active (S n)) handles →
  yield id (RunRecursive_step (descend n) var handles initial_state)
  = sum_list_with
      (fun h => yield id (dispatch_one (descend n) var (node_of h, [h]) initial_state))
      handles.
Proof.
  intros Hall.
  pose proof (groups_yield_grouped var handles [] (Forall_nil_2 _) Hall) as Hsum.
  pose proof (grouped_Forall _ handles [] Hall (Forall_nil_2 _)) as Hgroups.
  unfold RunRecursive_step. rewrite (DeduplicateExpression_grouped _ _ Hall). simpl.
  change (groups_yield id n var []) with O in Hsum. simpl in Hsum. rewrite <- Hsum.
  destruct (grouped handles []) as [|entry entries] eqn:Hg.
  - simpl. exact (record_count_initial id).
  - rewrite <- Hg in *. clear Hg entry entries. unfold Dispatch.
    destruct (yield_for_each id (dispatch_one (descend n) var)
                (iteration_order (grouped handles [])) initial_state)
      as (st' & -> & Hcount).
    + intros e He. apply dispatch_one_appends. rewrite iteration_order_perm in He.
      by apply (proj1 (Forall_forall _ _) Hgroups).
    + simpl. rewrite Hcount, record_count_initial. simpl.
      unfold groups_yield. by rewrite iteration_order_perm.
Qed.

End Level.

Lemma descent_yield_succ (n : nat) (var : RedfishVariant) (q : list SubqueryHandle) :
  descent_yield id (S n) var q
  = yield id (RunRecursive_step (descend n) var q initial_state).
Proof.
  destruct q as [|h q].
  - simpl. symmetry. exact (record_count_initial id).
  - unfold descent_yield, descend. by rewrite RunRecursive_at_unfold.
Qed.

Lemma descent_additive_all (n : nat) (var : RedfishVariant) (q1 q2 : list SubqueryHandle) :
  Forall (active n) (q1 ++ q2) →
  descent_yield id n var (q1 ++ q2)
  = (descent_yield id n var q1 + descent_yield id n var q2)%nat.
Proof.
  revert var q1 q2. induction n as [|n IH]; intros var q1 q2 Hall.
  - destruct q1 as [|h q1]; [destruct q2 as [|h q2]; [done|]|];
      apply Forall_cons in Hall as [Hh%active_zero _]; done.
  - pose proof Hall as [H1 H2]%Forall_app.
    rewrite !descent_yield_succ, !(yield_RunRecursive_step n IH) by done.
    apply sum_list_with_app.
Qed.

(** The records of a run are the records its handles give when each runs
    alone. *)
Lemma yield_RunRecursive_at (n : nat) (var : RedfishVariant) (handles : list SubqueryHandle) :
  Forall (active (S n)) handles →
  yield id (RunRecursive_at n var handles initial_state)
  = sum_list_with (fun h => yield id (RunRecursive_at n var [h] initial_state)) handles.
Proof.
  intros Hall. rewrite RunRecursive_at_unfold.
  rewrite (yield_RunRecursive_step n (descent_additive_all n)) by done.
  apply sum_list_with_ext_in. intros h Hh.
  rewrite (yield_RunRecursive_step n (descent_additive_all n)).
  - simpl. lia.
  - constructor; [|constructor]. by apply (proj1 (Forall_forall _ _) Hall).
Qed.

(** A run leaves the bucket of [id] alone when none of its handles belongs
    to a subquery of that id. *)
Lemma yield_other_id (n : nat) (var : RedfishVariant) (handles : list SubqueryHandle) :
  Forall (active (S n)) handles →
  Forall (fun h => subquery_id (subquery_ h) ≠ id) handles →
  yield id (RunRecursive_at n var handles initial_state) = O.
Proof.
  intros Hact Hid.
  assert (∀ v h st, subquery_id (subquery_ h) ≠ id →
            record_count id st = O → record_count id (emit v h st) = O) as Hemit.
  { intros v h st Hh Hst. unfold emit, GetSubquery.
    destruct (Normalize v (subquery_ h)); [|done].
    unfold record_count, records_of, with_output, add_data_set in *. simpl.
    by rewrite lookup_insert_ne. }
  assert (Forall (live (fun h => subquery_id (subquery_ h) ≠ id) (S n)) handles) as Hlive.
  { apply Forall_forall. intros h Hh. split.
    - by apply (proj1 (Forall_forall _ _) Hact).
    - by apply (proj1 (Forall_forall _ _) Hid). }
  destruct (RunRecursive_at_invariant
              (fun h => subquery_id (subquery_ h) ≠ id)
              (fun st => record_count id st = O)
              (fun h Hh => Hh) (fun _ _ st Hst => Hst) (fun _ _ st _ _ _ Hst => Hst)
              Hemit n var handles initial_state Hlive (record_count_initial id))
    as (d & -> & Hd).
  exact Hd.
Qed.

End RunAdditivity.

(** ** Depth *)

Section Fuel.

Context `{Collaborators}.

Lemma RunRecursive_step_ext (n : nat)
    (run1 run2 : RedfishVariant → list SubqueryHandle → ExecState → outcome ExecState)
    (var : RedfishVariant) (handles : list SubqueryHandle) (st : ExecState) :
  (∀ v q s, q ≠ [] → Forall (active n) q → run1 v q s = run2 v q s) →
  Forall (active (S n)) handles →
  RunRecursive_step run1 var handles st = RunRecursive_step run2 var handles st.
Proof.
  intros Hrun Hall. unfold RunRecursive_step.
  rewrite (DeduplicateExpression_grouped _ _ Hall). simpl.
  pose proof (grouped_Forall _ handles [] Hall (Forall_nil_2 _)) as Hgroups.
  destruct (grouped handles []) as [|entry entries] eqn:Hg; [done|].
  rewrite <- Hg in *. clear Hg entry entries. unfold Dispatch.
  assert (∀ member g s, Forall (active (S n)) g →
            QualifyEachSubquery run1 member g s = QualifyEachSubquery run2 member g s) as Hq.
  { intros member g s Hg.
    rewrite !QualifyEachSubquery_closed
      by (eapply Forall_impl; [done|apply active_in_range]).
    pose proof (survivors_active n member g Hg) as Hs.
    destruct (survivors member g) as [|h' q']; [done|]. by apply Hrun. }
  apply for_each_ext. intros [node g] s He. rewrite iteration_order_perm in He.
  pose proof (proj1 (Forall_forall _ _) Hgroups _ He) as Hg. simpl in *.
  destruct (AsObject (Get var node)); simpl; [|done].
  destruct (AsIterable (Get var node)) as [collection|]; [|by apply Hq].
  apply for_each_ext. intros member t _. by apply Hq.
Qed.

Lemma RunRecursive_at_succ (n : nat) (var : RedfishVariant)
    (handles : list SubqueryHandle) (st : ExecState) :
  Forall (active (S n)) handles →
  RunRecursive_at n var handles st = RunRecursive_at (S n) var handles st.
Proof.
  revert var handles st. induction n as [|n IH]; intros var handles st Hall.
  - rewrite !RunRecursive_at_unfold. apply (RunRecursive_step_ext 0); [|done].
    intros v [|h q] s Hq Hact; [done|].
    apply Forall_cons in Hact as [Hh%active_zero _]. done.
  - rewrite (RunRecursive_at_unfold (S n)), (RunRecursive_at_unfold (S (S n))).
    apply (RunRecursive_step_ext (S n)); [|done].
    intros v q s _ Hact. simpl. by apply IH.
Qed.

(** More depth than the handles need changes nothing. *)
Lemma RunRecursive_at_fuel (n m : nat) (var : RedfishVariant)
    (handles : list SubqueryHandle) (st : ExecState) :
  (n ≤ m)%nat → Forall (active (S n)) handles →
  RunRecursive_at n var handles st = RunRecursive_at m var handles st.
Proof.
  intros Hnm Hall. induction Hnm as [|m Hnm IH]; [done|].
  rewrite IH. apply RunRecursive_at_succ.
  eapply Forall_impl; [exact Hall|]. intros h. apply active_mono. lia.
Qed.

Lemma active_depth (handles : list SubqueryHandle) :
  Forall (fun h => is_redpath_valid_ h = true ∧ in_range h) handles →
  Forall (active (S (redpath_depth handles))) handles.
Proof.
  intros Hall. apply Forall_forall. intros h Hh.
  destruct (proj1 (Forall_forall _ _) Hall h Hh) as [Hv Hr].
  pose proof (steps_ahead_le_depth handles h Hh). repeat split; [done..|lia].
Qed.

(** The records of [RunRecursive] are those its handles give when each
    runs alone. *)
Lemma yield_RunRecursive (id : string) (var : RedfishVariant)
    (handles : list SubqueryHandle) :
  Forall (fun h => is_redpath_valid_ h = true ∧ in_range h) handles →
  yield id (RunRecursive var handles initial_state)
  = sum_list_with (fun h => yield id (RunRecursive var [h] initial_state)) handles.
Proof.
  intros Hall. unfold RunRecursive.
  rewrite yield_RunRecursive_at by (by apply active_depth).
  apply sum_list_with_ext_in. intros h Hh. f_equal.
  symmetry. apply RunRecursive_at_fuel.
  - pose proof (steps_ahead_le_depth handles h Hh).
    unfold redpath_depth at 1. simpl. lia.
  - apply active_depth. constructor; [|constructor].
    by apply (proj1 (Forall_forall _ _) Hall).
Qed.

End Fuel.

(** ** The records of a query *)

Section QueryYield.

Context `{Collaborators}.

Lemma keep_valid_loop_readable (subqueries : list Subquery) (acc handles : list SubqueryHandle) :
  for_each keep_if_valid subqueries acc = Done handles → Forall readable subqueries.
Proof.
  revert acc. induction subqueries as [|sq sqs IH]; intros acc; simpl; [constructor|].
  destruct (keep_if_valid sq acc) as [acc'| |] eqn:Hk; simpl; [|done..].
  intros Hrest. apply keep_if_valid_Done in Hk as [_ Hr].
  constructor; [done|by eapply IH].
Qed.

Lemma QueryPlanner_ctor_readable (query : DelliciusQuery) (qp : QueryPlanner) :
  QueryPlanner_ctor query = Done qp → Forall readable (subquery query).
Proof.
  unfold QueryPlanner_ctor.
  destruct (for_each keep_if_valid (subquery query) []) as [handles| |] eqn:Hloop; [|done..].
  intros _. by eapply keep_valid_loop_readable.
Qed.

Lemma keep_if_valid_valid (sq : Subquery) (handles : list SubqueryHandle) :
  is_redpath_valid_ (SubqueryHandle_ctor sq) = true → in_range (SubqueryHandle_ctor sq) →
  keep_if_valid sq handles = Done (handles ++ [SubqueryHandle_ctor sq]).
Proof.
  intros Hv Hr. unfold keep_if_valid, NextNodeInRedpath. rewrite Hv.
  by destruct (deref_in_range _ Hr) as (step & _ & ->).
Qed.

Lemma keep_valid_loop_complete (subqueries : list Subquery) (acc : list SubqueryHandle) :
  Forall readable subqueries →
  for_each keep_if_valid subqueries acc
  = Done (acc ++ List.filter is_redpath_valid_ (SubqueryHandle_ctor <$> subqueries)).
Proof.
  intros Hall. revert acc. induction Hall as [|sq sqs Hsq _ IH]; intros acc.
  - simpl. by rewrite app_nil_r.
  - cbn [for_each]. unfold readable in Hsq. rewrite fmap_cons. cbn [List.filter].
    destruct (is_redpath_valid_ (SubqueryHandle_ctor sq)) eqn:Hv.
    + rewrite (keep_if_valid_valid sq acc Hv (Hsq eq_refl)). simpl.
      rewrite IH. by rewrite <- List.app_assoc.
    + rewrite (keep_if_valid_invalid sq acc Hv). simpl. apply IH.
Qed.

Lemma QueryPlanner_ctor_complete (query : DelliciusQuery) :
  Forall readable (subquery query) →
  QueryPlanner_ctor query
  = Done {| plan_id_ := query_id query;
            subquery_handles_ :=
              List.filter is_redpath_valid_ (SubqueryHandle_ctor <$> subquery query) |}.
Proof.
  intros Hall. unfold QueryPlanner_ctor. by rewrite keep_valid_loop_complete.
Qed.

Lemma valid_handles_in_range (subqueries : list Subquery) :
  Forall readable subqueries →
  Forall (fun h => is_redpath_valid_ h = true ∧ in_range h)
         (List.filter is_redpath_valid_ (SubqueryHandle_ctor <$> subqueries)).
Proof.
  induction 1 as [|sq sqs Hsq _ IH]; [constructor|]. rewrite fmap_cons. simpl.
  destruct (is_redpath_valid_ (SubqueryHandle_ctor sq)) eqn:Hv; [|done].
  constructor; [|done]. split; [done|]. by apply Hsq.
Qed.

(** The records a query leaves in a bucket are those its valid handles
    give, each running alone. *)
Lemma execute_yield (id : string) (query : DelliciusQuery) (variant : RedfishVariant)
    (clock : Clock) :
  Forall readable (subquery query) →
  ∃ st clock',
    execute query variant clock = Done (st, clock') ∧
    record_count id st = subqueries_yield id variant (subquery query).
Proof.
  intros Hall. unfold subqueries_yield, execute. rewrite (QueryPlanner_ctor_complete query Hall). simpl.
  pose proof (valid_handles_in_range _ Hall) as Hrange.
  destruct (Run_Done {| plan_id_ := query_id query;
                        subquery_handles_ :=
                          List.filter is_redpath_valid_ (SubqueryHandle_ctor <$> subquery query) |}
              variant clock Hrange)
    as (d & Hd & _ & st & clock' & HRun & _ & Hout & _).
  exists st, clock'. split; [done|].
  pose proof (yield_RunRecursive id variant _ Hrange) as Hy. simpl in Hd.
  rewrite Hd in Hy. simpl in Hy. unfold handle_yield. rewrite <- Hy.
  unfold record_count, records_of. by rewrite Hout.
Qed.

Lemma handle_yield_other_id (id : string) (variant : RedfishVariant)
    (subqueries : list Subquery) :
  Forall readable subqueries →
  Forall (fun other => subquery_id other ≠ id) subqueries →
  subqueries_yield id variant subqueries = O.
Proof.
  unfold subqueries_yield.
  intros Hread Hid. induction Hread as [|sq sqs Hsq _ IH]; [done|].
  apply Forall_cons in Hid as [Hne Hid]. rewrite fmap_cons. simpl.
  destruct (is_redpath_valid_ (SubqueryHandle_ctor sq)) eqn:Hv; [|by apply IH].
  simpl. rewrite IH by done. unfold handle_yield, RunRecursive.
  rewrite yield_other_id; [done| |].
  - apply active_depth. repeat constructor; [done|by apply Hsq].
  - repeat constructor. by rewrite SubqueryHandle_ctor_subquery.
Qed.

Lemma subqueries_yield_app (id : string) (variant : RedfishVariant)
    (sqs1 sqs2 : list Subquery) :
  subqueries_yield id variant (sqs1 ++ sqs2)
  = (subqueries_yield id variant sqs1 + subqueries_yield id variant sqs2)%nat.
Proof.
  unfold subqueries_yield. by rewrite fmap_app, List.filter_app, sum_list_with_app.
Qed.

End QueryYield.

(** C8, as the code has it.  All records of a subquery id are in the one
    bucket of that id.  A second, identical copy of a subquery adds to its
    bucket as many records as the subquery yields as the only subquery of a
    query; when no other subquery of the query has the same id, the bucket
    thus holds exactly twice the records of the query with one copy. *)
Theorem duplicate_subquery_adds_its_records `{Collaborators} (qid : string)
    (before middle after : list Subquery) (sq : Subquery)
    (variant : RedfishVariant) (clock : Clock) (qp : QueryPlanner) :
  let twice := {| query_id := qid; subquery := before ++ sq :: middle ++ sq :: after |} in
  let once := {| query_id := qid; subquery := before ++ sq :: middle ++ after |} in
  let alone := {| query_id := qid; subquery := [sq] |} in
  QueryPlanner_ctor twice = Done qp →
  ∃ st2 clock2 st1 clock1 st0 clock0,
    execute twice variant clock = Done (st2, clock2) ∧
    execute once variant clock = Done (st1, clock1) ∧
    execute alone variant clock = Done (st0, clock0) ∧
    record_count (subquery_id sq) st2
    = (record_count (subquery_id sq) st1 + record_count (subquery_id sq) st0)%nat ∧
    (Forall (fun other => subquery_id other ≠ subquery_id sq) (before ++ middle ++ after) →
     record_count (subquery_id sq) st2 = (2 * record_count (subquery_id sq) st1)%nat).
Proof.
  intros twice once alone Hqp.
  apply QueryPlanner_ctor_readable in Hqp. simpl in Hqp.
  apply Forall_app in Hqp as [Hb Hrest]. apply Forall_cons in Hrest as [Hsq Hrest].
  apply Forall_app in Hrest as [Hm Hrest]. apply Forall_cons in Hrest as [_ Ha].
  destruct (execute_yield (subquery_id sq) twice variant clock) as (st2 & c2 & H2 & Hc2).
  { simpl. repeat (apply Forall_app; split; try done) || (apply Forall_cons; split; try done). }
  destruct (execute_yield (subquery_id sq) once variant clock) as (st1 & c1 & H1 & Hc1).
  { simpl. repeat (apply Forall_app; split; try done) || (apply Forall_cons; split; try done). }
  destruct (execute_yield (subquery_id sq) alone variant clock) as (st0 & c0 & H0 & Hc0).
  { simpl. by repeat constructor. }
  exists st2, c2, st1, c1, st0, c0. repeat split; try done.
  - rewrite Hc2, Hc1, Hc0. unfold twice, once, alone. cbn [subquery].
    change (before ++ sq :: middle ++ sq :: after)
      with (before ++ [sq] ++ middle ++ [sq] ++ after).
    change (before ++ sq :: middle ++ after) with (before ++ [sq] ++ middle ++ after).
    rewrite !subqueries_yield_app. lia.
  - intros Hother. apply Forall_app in Hother as [Hob Hother].
    apply Forall_app in Hother as [Hom Hoa].
    pose proof (handle_yield_other_id (subquery_id sq) variant before Hb Hob) as Zb.
    pose proof (handle_yield_other_id (subquery_id sq) variant middle Hm Hom) as Zm.
    pose proof (handle_yield_other_id (subquery_id sq) variant after Ha Hoa) as Za.
    rewrite Hc2, Hc1. unfold twice, once. cbn [subquery].
    change (before ++ sq :: middle ++ sq :: after)
      with (before ++ [sq] ++ middle ++ [sq] ++ after).
    change (before ++ sq :: middle ++ after) with (before ++ [sq] ++ middle ++ after).
    rewrite !subqueries_yield_app. lia.
Qed.

Lemma duplicate_subquery_adds_its_records_witness :
  let twice := Mockup.query_of [Mockup.name_of_chassis; Mockup.state_of_status;
                                Mockup.name_of_chassis] in
  let once := Mockup.query_of [Mockup.name_of_chassis; Mockup.state_of_status] in
  let alone := Mockup.query_of [Mockup.name_of_chassis] in
  QueryPlanner_ctor twice
  = Done (Mockup.planner_of [Mockup.name_of_chassis; Mockup.state_of_status;
                             Mockup.name_of_chassis]) ∧
  Forall (fun other => subquery_id other ≠ "S1") [Mockup.state_of_status] ∧
  ∃ st2 clock2 st1 clock1 st0 clock0,
    execute twice Mockup.two_chassis_root 5%nat = Done (st2, clock2) ∧
    execute once Mockup.two_chassis_root 5%nat = Done (st1, clock1) ∧
    execute alone Mockup.two_chassis_root 5%nat = Done (st0, clock0) ∧
    record_count "S1" st2 = (record_count "S1" st1 + record_count "S1" st0)%nat ∧
    record_count "S1" st2 = (2 * record_count "S1" st1)%nat.
Proof.
  intros twice once alone.
  assert (QueryPlanner_ctor twice
          = Done (Mockup.planner_of [Mockup.name_of_chassis; Mockup.state_of_status;
                                     Mockup.name_of_chassis])) as Hqp
    by (vm_compute; reflexivity).
  assert (Forall (fun other => subquery_id other ≠ "S1") [Mockup.state_of_status]) as Hother
    by (repeat constructor; vm_compute; discriminate).
  split; [exact Hqp|]. split; [exact Hother|].
  destruct (duplicate_subquery_adds_its_records (H := Mockup.collaborators)
              "Q1" [] [Mockup.state_of_status] []
              Mockup.name_of_chassis Mockup.two_chassis_root 5%nat _ Hqp)
    as (st2 & c2 & st1 & c1 & st0 & c0 & H2 & H1 & H0 & Hsum & Hdouble).
  exists st2, c2, st1, c1, st0, c0. repeat split; try assumption.
  apply Hdouble. exact Hother.
Defined.

(** C8, as the claim has it, fails when another subquery shares the id.
    With a third subquery [S1] on another redpath, the query with two copies
    of [/Chassis[*]] leaves three records in the bucket [S1] and the query
    with one copy leaves two. *)
Lemma duplicate_beside_alias_is_not_double :
  let twice := execute (Mockup.query_of [Mockup.name_of_chassis; Mockup.name_of_chassis;
                                         Mockup.state_as_S1]) Mockup.service_root 5%nat in
  let once := execute (Mockup.query_of [Mockup.name_of_chassis; Mockup.state_as_S1])
                      Mockup.service_root 5%nat in
  (size ∘ subquery_output_by_id ∘ result ∘ fst) <$> twice = Done 1%nat ∧
  (record_count "S1" ∘ fst) <$> twice = Done 3%nat ∧
  (record_count "S1" ∘ fst) <$> once = Done 2%nat ∧
  ¬ ∃ st2 clock2 st1 clock1,
      twice = Done (st2, clock2) ∧ once = Done (st1, clock1) ∧
      record_count "S1" st2 = (2 * record_count "S1" st1)%nat.
Proof.
  intros twice once.
  assert ((record_count "S1" ∘ fst) <$> twice = Done 3%nat) as H2
    by (vm_compute; reflexivity).
  assert ((record_count "S1" ∘ fst) <$> once = Done 2%nat) as H1
    by (vm_compute; reflexivity).
  split; [vm_compute; reflexivity|]. split; [exact H2|]. split; [exact H1|].
  intros (st2 & c2 & st1 & c1 & E2 & E1 & Hdouble).
  rewrite E2 in H2. rewrite E1 in H1. simpl in H2, H1.
  injection H2 as H2. injection H1 as H1. lia.
Qed.

(** * Further properties of the planner *)

(** ** The cursor on redpaths without a repeated node name *)

(** When no two steps of the redpath have the same node name,
    [FilterNodeSet] goes by the position of the cursor: a rejected resource
    ends the handle, an accepted one ends the redpath on the last step and
    advances the cursor by one on any other step. *)
Theorem FilterNodeSet_by_position `{Collaborators} (h : SubqueryHandle)
    (var : RedfishVariant) (step : Step) :
  NoDup (steps_in_redpath_ h).*1 →
  steps_in_redpath_ h !! iter_ h = Some step →
  FilterNodeSet h var
  = Done (if step.2 var then
            if decide (S (iter_ h) = List.length (steps_in_redpath_ h))
            then (kEndOfRedpath, h)
            else (kContinue, advance h)
          else (kEndByPredicate, h)).
Proof.
  intros Hnd Hl. pose proof (lookup_lt_Some _ _ _ Hl) as Hr.
  rewrite (FilterNodeSet_verdict h var Hr). unfold continues.
  destruct (step.2 var) eqn:Hacc.
  - destruct (end_of_redpath_iff_last_step h var step Hnd Hl Hacc) as [He Hc].
    unfold at_last_step in *.
    destruct (decide (S (iter_ h) = List.length (steps_in_redpath_ h))) as [Hlast|Hnot].
    + apply He in Hlast. by rewrite Hlast.
    + apply Hc in Hnot. by rewrite Hnot.
  - unfold verdict. by rewrite Hl, Hacc.
Qed.

Lemma FilterNodeSet_by_position_witness :
  let h := advance (SubqueryHandle_ctor Mockup.state_of_status) in
  NoDup (steps_in_redpath_ h).*1 ∧
  steps_in_redpath_ h !! iter_ h = Some ("Status", ApplySelectAllFilter) ∧
  FilterNodeSet h Mockup.chassis = Done (kEndOfRedpath, h).
Proof.
  intros h.
  assert (NoDup (steps_in_redpath_ h).*1) as Hnd.
  { vm_compute. apply NoDup_cons. split; [|apply NoDup_singleton].
    intros Hin. apply list_elem_of_singleton in Hin. discriminate. }
  assert (steps_in_redpath_ h !! iter_ h = Some ("Status", ApplySelectAllFilter)) as Hl
    by (vm_compute; reflexivity).
  split; [exact Hnd|]. split; [exact Hl|].
  exact (FilterNodeSet_by_position h Mockup.chassis _ Hnd Hl).
Defined.

(** ** What the constructor of the planner does *)

Section Constructor.

Context `{Collaborators}.

Lemma compile_steps_grows (step_expressions : list string) (steps : list Step) :
  (List.length steps ≤ List.length (compile_steps step_expressions steps).1)%nat.
Proof.
  revert steps. induction step_expressions as [|e es IH]; intros steps; simpl; [done|].
  destruct (GetNodeAndPredicate e) as [[node predicate]|]; [|done].
  destruct (decide (predicate = kPredicateSelectAll)); [|done].
  etrans; [|apply IH]. rewrite length_app. simpl. lia.
Qed.

Lemma SubqueryHandle_ctor_steps_length (sq : Subquery) :
  is_redpath_valid_ (SubqueryHandle_ctor sq) = true →
  List.length (steps_in_redpath_ (SubqueryHandle_ctor sq))
  = List.length (StringView.StrSplit_SkipEmpty (redpath sq) "/"%char).
Proof.
  unfold SubqueryHandle_ctor.
  pose proof (compile_steps_length (StringView.StrSplit_SkipEmpty (redpath sq) "/"%char) [])
    as Hlen.
  destruct (compile_steps _ _) as [steps ok]. simpl in *. intros ->. by apply Hlen.
Qed.

Lemma SubqueryHandle_ctor_no_steps (sq : Subquery) :
  ¬ has_steps sq →
  is_redpath_valid_ (SubqueryHandle_ctor sq) = true ∧
  steps_in_redpath_ (SubqueryHandle_ctor sq) = [].
Proof.
  unfold has_steps, SubqueryHandle_ctor. intros Hno.
  destruct (StringView.StrSplit_SkipEmpty (redpath sq) "/"%char); [done|].
  by destruct Hno.
Qed.

Lemma readable_has_steps (sq : Subquery) : readable sq ↔ has_steps sq.
Proof.
  split.
  - intros Hread. destruct (decide (has_steps sq)) as [|Hno]; [done|]. exfalso.
    destruct (SubqueryHandle_ctor_no_steps sq Hno) as [Hv Hs].
    specialize (Hread Hv). unfold in_range in Hread. rewrite Hs in Hread. simpl in Hread. lia.
  - intros Hsteps Hv. unfold in_range.
    rewrite SubqueryHandle_ctor_iter, (SubqueryHandle_ctor_steps_length sq Hv).
    unfold has_steps in Hsteps.
    destruct (StringView.StrSplit_SkipEmpty (redpath sq) "/"%char); [done|simpl; lia].
Qed.

Lemma keep_if_valid_no_steps (sq : Subquery) (handles : list SubqueryHandle) :
  ¬ has_steps sq → keep_if_valid sq handles = InvalidRead.
Proof.
  intros Hno. destruct (SubqueryHandle_ctor_no_steps sq Hno) as [Hv Hs].
  unfold keep_if_valid, NextNodeInRedpath, deref.
  by rewrite Hv, Hs, SubqueryHandle_ctor_iter.
Qed.

Lemma keep_if_valid_fuel (sq : Subquery) (handles : list SubqueryHandle) :
  keep_if_valid sq handles ≠ OutOfFuel.
Proof.
  unfold keep_if_valid, NextNodeInRedpath.
  destruct (is_redpath_valid_ (SubqueryHandle_ctor sq)); simpl; [|done].
  unfold deref. by destruct (_ !! _).
Qed.

Lemma keep_valid_loop_no_steps (subqueries : list Subquery) (acc : list SubqueryHandle) :
  Exists (fun sq => ¬ has_steps sq) subqueries →
  for_each keep_if_valid subqueries acc = InvalidRead.
Proof.
  intros Hex. revert acc. induction subqueries as [|sq sqs IH]; intros acc.
  - by apply Exists_nil in Hex.
  - cbn [for_each]. destruct (decide (has_steps sq)) as [Hsteps|Hno].
    + apply Exists_cons in Hex as [Hno|Hex]; [done|].
      pose proof (keep_if_valid_fuel sq acc).
      destruct (keep_if_valid sq acc) as [acc'| |]; simpl; [by apply IH|done..].
    + by rewrite (keep_if_valid_no_steps sq acc Hno).
Qed.

End Constructor.

(** The constructor of the planner completes exactly when every redpath of
    the query has a step.  It then holds the valid handles, in the order of
    the subqueries; a redpath without a step, as the empty string, makes the
    constructor read outside a step list, whatever the other subqueries
    are. *)
Theorem QueryPlanner_ctor_outcome `{Collaborators} (query : DelliciusQuery) :
  QueryPlanner_ctor query
  = if decide (Forall has_steps (subquery query)) then
      Done {| plan_id_ := query_id query;
              subquery_handles_ :=
                List.filter is_redpath_valid_ (SubqueryHandle_ctor <$> subquery query) |}
    else InvalidRead.
Proof.
  destruct (decide (Forall has_steps (subquery query))) as [Hall|Hnot].
  - apply QueryPlanner_ctor_complete.
    eapply Forall_impl; [exact Hall|]. intros sq. apply readable_has_steps.
  - unfold QueryPlanner_ctor. rewrite keep_valid_loop_no_steps; [done|].
    apply not_Forall_Exists in Hnot; [|apply _].
    eapply Exists_impl; [exact Hnot|]. by intros sq.
Qed.

(** ** Runs that start from any result *)

Section RunAppends.

Context `{Collaborators}.

Lemma records_of_set_end_timestamp (id : string) (t : option Timestamp) (st : ExecState) :
  records_of id (set_end_timestamp t st) = records_of id st.
Proof. by destruct t. Qed.

Lemma compilation_fails_has_steps (sq : Subquery) : compilation_fails sq → has_steps sq.
Proof.
  unfold compilation_fails, has_steps. intros Hex Hnil. rewrite Hnil in Hex.
  by apply Exists_nil in Hex.
Qed.

Lemma no_valid_handle (subqueries : list Subquery) :
  Forall compilation_fails subqueries →
  List.filter is_redpath_valid_ (SubqueryHandle_ctor <$> subqueries) = [].
Proof.
  induction 1 as [|sq sqs Hsq%compilation_fails_invalid _ IH]; [done|].
  rewrite fmap_cons. simpl. by rewrite Hsq.
Qed.

End RunAppends.

(** [Run] appends to the result it is given.  On the handles of a planner
    it completes after two readings of the clock; the query id goes after the
    query ids that were there, the records of every bucket after the records
    that were there, and each timestamp is overwritten only when its reading
    converts.  What is appended is what the walker does from the initial
    state. *)
Theorem Run_appends `{Collaborators} (qp : QueryPlanner) (variant : RedfishVariant)
    (clock : Clock) (st : ExecState) :
  Forall (fun h => is_redpath_valid_ h = true ∧ in_range h) (subquery_handles_ qp) →
  ∃ d st',
    RunRecursive variant (subquery_handles_ qp) initial_state = Done d ∧
    Run qp variant clock st = Done (st', (Now (Now clock).2).2) ∧
    query_ids (result st') = query_ids (result st) ++ [plan_id_ qp] ∧
    (∀ id, records_of id st' = records_of id st ++ records_of id d) ∧
    trace st' = trace st ++ trace d ∧
    start_timestamp (result st')
    = from_option Some (start_timestamp (result st)) (AbslTimeToProtoTime (Now clock).1) ∧
    end_timestamp (result st')
    = from_option Some (end_timestamp (result st))
        (AbslTimeToProtoTime (Now (Now clock).2).1).
Proof.
  intros Hall.
  destruct (RunRecursive_fuel_enough variant _ initial_state Hall) as (d & Hd & _);
    [constructor|].
  unfold Run. destruct (Now clock) as [now1 clock1]. simpl.
  destruct (Now clock1) as [now2 clock2]. simpl.
  exists d. eexists. split; [exact Hd|].
  unfold RunRecursive in *. rewrite RunRecursive_at_from_initial, Hd. simpl.
  split; [reflexivity|].
  destruct (AbslTimeToProtoTime now1), (AbslTimeToProtoTime now2); simpl;
    repeat split; try done; intros id; by rewrite <- records_of_extend.
Qed.

Lemma Run_appends_witness :
  let qp := Mockup.planner_of [Mockup.name_of_chassis] in
  Forall (fun h => is_redpath_valid_ h = true ∧ in_range h) (subquery_handles_ qp) ∧
  ∃ d st',
    RunRecursive Mockup.service_root (subquery_handles_ qp) initial_state = Done d ∧
    Run qp Mockup.service_root 5%nat initial_state = Done (st', 7%nat) ∧
    query_ids (result st') = [] ++ ["Q1"] ∧
    (∀ id, records_of id st' = records_of id initial_state ++ records_of id d) ∧
    trace st' = [] ++ trace d ∧
    start_timestamp (result st') = Some 5%nat ∧
    end_timestamp (result st') = Some 6%nat.
Proof.
  intros qp.
  assert (Forall (fun h => is_redpath_valid_ h = true ∧ in_range h) (subquery_handles_ qp))
    as Hall.
  { apply Forall_cons. split; [|constructor]. split; [vm_compute; reflexivity|].
    vm_compute. lia. }
  split; [exact Hall|].
  exact (Run_appends qp Mockup.service_root 5%nat initial_state Hall).
Defined.

(** A query none of whose subqueries compiles, as a query without
    subqueries, is executed without a single request to the resource view:
    the result has the query id, the two timestamps and no bucket. *)
Theorem nothing_valid_nothing_asked `{Collaborators} (query : DelliciusQuery)
    (variant : RedfishVariant) (clock : Clock) :
  Forall compilation_fails (subquery query) →
  ∃ st,
    execute query variant clock = Done (st, (Now (Now clock).2).2) ∧
    trace st = [] ∧
    subquery_output_by_id (result st) = ∅ ∧
    query_ids (result st) = [query_id query] ∧
    start_timestamp (result st) = AbslTimeToProtoTime (Now clock).1 ∧
    end_timestamp (result st) = AbslTimeToProtoTime (Now (Now clock).2).1.
Proof.
  intros Hall. unfold execute.
  rewrite QueryPlanner_ctor_complete.
  2:{ eapply Forall_impl; [exact Hall|]. intros sq Hsq.
      by apply readable_has_steps, compilation_fails_has_steps. }
  simpl. rewrite (no_valid_handle _ Hall). unfold Run. simpl.
  destruct (Now clock) as [now1 clock1]. simpl.
  destruct (Now clock1) as [now2 clock2]. simpl.
  eexists. split; [done|].
  by destruct (AbslTimeToProtoTime now1), (AbslTimeToProtoTime now2).
Qed.

Lemma nothing_valid_nothing_asked_witness :
  Forall compilation_fails (subquery (Mockup.query_of [Mockup.missing_brackets])) ∧
  ∃ st,
    execute (Mockup.query_of [Mockup.missing_brackets]) Mockup.service_root 5%nat
    = Done (st, 7%nat) ∧
    trace st = [] ∧
    subquery_output_by_id (result st) = ∅ ∧
    query_ids (result st) = ["Q1"] ∧
    start_timestamp (result st) = Some 5%nat ∧
    end_timestamp (result st) = Some 6%nat.
Proof.
  assert (Forall compilation_fails (subquery (Mockup.query_of [Mockup.missing_brackets])))
    as Hall.
  { apply Forall_cons. split; [|constructor].
    apply Exists_cons_hd. left. vm_compute. reflexivity. }
  split; [exact Hall|].
  exact (nothing_valid_nothing_asked (Mockup.query_of [Mockup.missing_brackets])
           Mockup.service_root 5%nat Hall).
Defined.

(** ** Record counts and the list of subqueries *)

Section QueryCounts.

Context `{Collaborators}.

Lemma subqueries_yield_Permutation (id : string) (variant : RedfishVariant)
    (sqs sqs' : list Subquery) :
  sqs ≡ₚ sqs' → subqueries_yield id variant sqs = subqueries_yield id variant sqs'.
Proof.
  unfold subqueries_yield. induction 1 as [|sq sqs sqs' _ IH|sq1 sq2 sqs|? ? ? _ IH1 _ IH2].
  - done.
  - rewrite !fmap_cons. simpl.
    destruct (is_redpath_valid_ (SubqueryHandle_ctor sq)); simpl; by rewrite IH.
  - rewrite !fmap_cons. simpl.
    destruct (is_redpath_valid_ (SubqueryHandle_ctor sq1)),
             (is_redpath_valid_ (SubqueryHandle_ctor sq2)); simpl; lia.
  - by rewrite IH1.
Qed.

End QueryCounts.

(** The number of records in a bucket adds up over the subqueries: the
    query made of two lists of subqueries leaves in every bucket as many
    records as the queries made of either list leave together. *)
Theorem record_count_of_concatenation `{Collaborators} (qid id : string)
    (sqs1 sqs2 : list Subquery) (variant : RedfishVariant) (clock : Clock)
    (qp : QueryPlanner) :
  QueryPlanner_ctor {| query_id := qid; subquery := sqs1 ++ sqs2 |} = Done qp →
  ∃ st clock' st1 clock1 st2 clock2,
    execute {| query_id := qid; subquery := sqs1 ++ sqs2 |} variant clock = Done (st, clock') ∧
    execute {| query_id := qid; subquery := sqs1 |} variant clock = Done (st1, clock1) ∧
    execute {| query_id := qid; subquery := sqs2 |} variant clock = Done (st2, clock2) ∧
    record_count id st = (record_count id st1 + record_count id st2)%nat.
Proof.
  intros Hqp. apply QueryPlanner_ctor_readable in Hqp. simpl in Hqp.
  pose proof Hqp as [H1 H2]%Forall_app.
  destruct (execute_yield id {| query_id := qid; subquery := sqs1 ++ sqs2 |} variant clock Hqp)
    as (st & c & He & Hc).
  destruct (execute_yield id {| query_id := qid; subquery := sqs1 |} variant clock H1)
    as (st1 & c1 & He1 & Hc1).
  destruct (execute_yield id {| query_id := qid; subquery := sqs2 |} variant clock H2)
    as (st2 & c2 & He2 & Hc2).
  exists st, c, st1, c1, st2, c2. repeat split; try done.
  rewrite Hc, Hc1, Hc2. apply subqueries_yield_app.
Qed.

Lemma record_count_of_concatenation_witness :
  QueryPlanner_ctor (Mockup.query_of ([Mockup.name_of_chassis] ++ [Mockup.state_as_S1]))
  = Done (Mockup.planner_of [Mockup.name_of_chassis; Mockup.state_as_S1]) ∧
  ∃ st clock' st1 clock1 st2 clock2,
    execute (Mockup.query_of ([Mockup.name_of_chassis] ++ [Mockup.state_as_S1]))
            Mockup.two_chassis_root 5%nat = Done (st, clock') ∧
    execute (Mockup.query_of [Mockup.name_of_chassis]) Mockup.two_chassis_root 5%nat
    = Done (st1, clock1) ∧
    execute (Mockup.query_of [Mockup.state_as_S1]) Mockup.two_chassis_root 5%nat
    = Done (st2, clock2) ∧
    record_count "S1" st = (record_count "S1" st1 + record_count "S1" st2)%nat.
Proof.
  assert (QueryPlanner_ctor
            (Mockup.query_of ([Mockup.name_of_chassis] ++ [Mockup.state_as_S1]))
          = Done (Mockup.planner_of [Mockup.name_of_chassis; Mockup.state_as_S1])) as Hqp
    by (vm_compute; reflexivity).
  split; [exact Hqp|].
  exact (record_count_of_concatenation (H := Mockup.collaborators) "Q1" "S1"
           [Mockup.name_of_chassis] [Mockup.state_as_S1] Mockup.two_chassis_root 5%nat _ Hqp).
Defined.

(** The number of records in a bucket does not depend on the order of the
    subqueries in the query. *)
Theorem record_count_of_permutation `{Collaborators} (qid id : string)
    (sqs sqs' : list Subquery) (variant : RedfishVariant) (clock : Clock)
    (qp : QueryPlanner) :
  sqs ≡ₚ sqs' →
  QueryPlanner_ctor {| query_id := qid; subquery := sqs |} = Done qp →
  ∃ st clock1 st' clock2,
    execute {| query_id := qid; subquery := sqs |} variant clock = Done (st, clock1) ∧
    execute {| query_id := qid; subquery := sqs' |} variant clock = Done (st', clock2) ∧
    record_count id st = record_count id st'.
Proof.
  intros Hperm Hqp. apply QueryPlanner_ctor_readable in Hqp. simpl in Hqp.
  assert (Forall readable sqs') as Hqp' by (by rewrite <- Hperm).
  destruct (execute_yield id {| query_id := qid; subquery := sqs |} variant clock Hqp)
    as (st & c & He & Hc).
  destruct (execute_yield id {| query_id := qid; subquery := sqs' |} variant clock Hqp')
    as (st' & c' & He' & Hc').
  exists st, c, st', c'. repeat split; try done.
  rewrite Hc, Hc'. by apply subqueries_yield_Permutation.
Qed.

Lemma record_count_of_permutation_witness :
  [Mockup.name_of_chassis; Mockup.state_as_S1] ≡ₚ [Mockup.state_as_S1; Mockup.name_of_chassis] ∧
  QueryPlanner_ctor (Mockup.query_of [Mockup.name_of_chassis; Mockup.state_as_S1])
  = Done (Mockup.planner_of [Mockup.name_of_chassis; Mockup.state_as_S1]) ∧
  ∃ st clock1 st' clock2,
    execute (Mockup.query_of [Mockup.name_of_chassis; Mockup.state_as_S1])
            Mockup.two_chassis_root 5%nat = Done (st, clock1) ∧
    execute (Mockup.query_of [Mockup.state_as_S1; Mockup.name_of_chassis])
            Mockup.two_chassis_root 5%nat = Done (st', clock2) ∧
    record_count "S1" st = record_count "S1" st'.
Proof.
  assert ([Mockup.name_of_chassis; Mockup.state_as_S1]
          ≡ₚ [Mockup.state_as_S1; Mockup.name_of_chassis]) as Hperm
    by apply Permutation_swap.
  assert (QueryPlanner_ctor (Mockup.query_of [Mockup.name_of_chassis; Mockup.state_as_S1])
          = Done (Mockup.planner_of [Mockup.name_of_chassis; Mockup.state_as_S1])) as Hqp
    by (vm_compute; reflexivity).
  split; [exact Hperm|]. split; [exact Hqp|].
  exact (record_count_of_permutation (H := Mockup.collaborators) "Q1" "S1" _ _
           Mockup.two_chassis_root 5%nat _ Hperm Hqp).
Defined.

(** ** What a bucket holds *)

Section Buckets.

Context `{Collaborators}.
Variable subqueries : list Subquery.

Lemma buckets_normalized_emit (var : RedfishVariant) (h : SubqueryHandle) (st : ExecState) :
  subquery_ h ∈ subqueries →
  is_redpath_valid_ (SubqueryHandle_ctor (subquery_ h)) = true →
  buckets_normalized subqueries st → buckets_normalized subqueries (emit var h st).
Proof.
  intros Hin Hv Hst. unfold emit, GetSubquery.
  destruct (Normalize var (subquery_ h)) as [data|] eqn:Hn; [|done].
  intros id records. unfold with_output, add_data_set. simpl.
  destruct (decide (subquery_id (subquery_ h) = id)) as [<-|Hne].
  - rewrite lookup_insert_eq. intros [= <-]. split.
    + by destruct (default [] _).
    + apply Forall_app. split.
      * destruct (subquery_output_by_id (result st) !! subquery_id (subquery_ h))
          as [old|] eqn:Hold; simpl; [|constructor].
        by apply (Hst _ _ Hold).
      * repeat constructor. by exists (subquery_ h), var.
  - rewrite lookup_insert_ne by done. apply Hst.
Qed.

Lemma buckets_normalized_run (n : nat) (variant : RedfishVariant)
    (handles : list SubqueryHandle) (st : ExecState) :
  Forall (active (S n)) handles →
  Forall (fun h => subquery_ h ∈ subqueries ∧
                   is_redpath_valid_ (SubqueryHandle_ctor (subquery_ h)) = true) handles →
  buckets_normalized subqueries st →
  ∃ st', RunRecursive_at n variant handles st = Done st' ∧
         buckets_normalized subqueries st'.
Proof.
  intros Hact HP Hst.
  apply (RunRecursive_at_invariant
           (fun h => subquery_ h ∈ subqueries ∧
                     is_redpath_valid_ (SubqueryHandle_ctor (subquery_ h)) = true)
           (buckets_normalized subqueries)
           (fun h Hh => Hh) (fun _ _ st Hst => Hst) (fun _ _ st _ _ _ Hst => Hst)).
  - intros var h st' [Hin Hv]. by apply buckets_normalized_emit.
  - apply Forall_forall. intros h Hh. split.
    + by apply (proj1 (Forall_forall _ _) Hact).
    + by apply (proj1 (Forall_forall _ _) HP).
  - done.
Qed.

End Buckets.

(** Every bucket of the result of a query holds at least one record, and
    every record in it is what the normalizer returned for some resource and
    for a subquery of the query with the id of the bucket and a valid handle.
    So a subquery that matches nothing has no bucket, and neither has a
    subquery that was dropped. *)
Theorem buckets_hold_normalized_records `{Collaborators} (query : DelliciusQuery)
    (variant : RedfishVariant) (clock : Clock) (st : ExecState) (clock' : Clock) :
  execute query variant clock = Done (st, clock') →
  buckets_normalized (subquery query) st.
Proof.
  unfold execute. destruct (QueryPlanner_ctor query) as [qp| |] eqn:Hqp; simpl; [|done..].
  apply QueryPlanner_ctor_Done in Hqp as (_ & Hhs & Hall).
  unfold Run. destruct (Now clock) as [now1 clock1].
  destruct (buckets_normalized_run (subquery query) (redpath_depth (subquery_handles_ qp))
              variant (subquery_handles_ qp)
              (add_query_ids (plan_id_ qp)
                 (set_start_timestamp (AbslTimeToProtoTime now1) initial_state)))
    as (st' & Hrun & Hst').
  - by apply active_depth.
  - rewrite Hhs. apply Forall_forall. intros h Hh.
    apply list_elem_of_In, List.filter_In in Hh as [Hin Hv].
    apply List.in_map_iff in Hin as (sq & <- & Hsq).
    rewrite SubqueryHandle_ctor_subquery. split; [by apply list_elem_of_In|done].
  - intros id records. destruct (AbslTimeToProtoTime now1); simpl; by rewrite lookup_empty.
  - unfold RunRecursive. rewrite Hrun. simpl. destruct (Now clock1) as [now2 clock2].
    intros [= <- _]. intros id records.
    destruct (AbslTimeToProtoTime now2); simpl; apply Hst'.
Qed.

Lemma buckets_hold_normalized_records_witness :
  ∃ st clock',
    execute (Mockup.query_of [Mockup.name_of_chassis; Mockup.state_of_status])
            Mockup.two_chassis_root 5%nat = Done (st, clock') ∧
    buckets_normalized [Mockup.name_of_chassis; Mockup.state_of_status] st.
Proof.
  destruct (execute (H := Mockup.collaborators)
              (Mockup.query_of [Mockup.name_of_chassis; Mockup.state_of_status])
              Mockup.two_chassis_root 5%nat) as [[st clock']| |] eqn:Hexec.
  - exists st, clock'. split; [reflexivity|].
    exact (buckets_hold_normalized_records (H := Mockup.collaborators)
             (Mockup.query_of [Mockup.name_of_chassis; Mockup.state_of_status])
             Mockup.two_chassis_root 5%nat st clock' Hexec).
  - vm_compute in Hexec. discriminate.
  - vm_compute in Hexec. discriminate.
Defined.

(** ** Parsing steps and redpaths *)

Module StringFacts.

Local Open Scope Z_scope.

Lemma length_append (s1 s2 : string) :
  String.length (s1 +:+ s2) = (String.length s1 + String.length s2)%nat.
Proof. induction s1 as [|a s1 IH]; simpl; [done|]. by rewrite IH. Qed.

Lemma size_append (s1 s2 : string) :
  StringView.size (s1 +:+ s2) = StringView.size s1 + StringView.size s2.
Proof. unfold StringView.size. rewrite length_append. lia. Qed.

Lemma size_nonneg (s : string) : 0 ≤ StringView.size s.
Proof. unfold StringView.size. lia. Qed.

Lemma has_char_append (c : ascii) (s1 s2 : string) :
  has_char c (s1 +:+ s2) = has_char c s1 || has_char c s2.
Proof.
  induction s1 as [|a s1 IH]; simpl; [done|]. rewrite IH. by rewrite orb_assoc.
Qed.

Lemma find_from_skip (c : ascii) (s1 s2 : string) (pos : Z) :
  has_char c s1 = false →
  StringView.find_from c (s1 +:+ s2) pos
  = StringView.find_from c s2 (pos + StringView.size s1).
Proof.
  revert pos. induction s1 as [|a s1 IH]; intros pos; simpl.
  - intros _. f_equal. unfold StringView.size. simpl. lia.
  - intros [Ha Hs]%orb_false_elim. apply bool_decide_eq_false in Ha.
    rewrite decide_False by done. rewrite IH by done. f_equal.
    unfold StringView.size. simpl. lia.
Qed.

Lemma find_from_absent (c : ascii) (s : string) (pos : Z) :
  has_char c s = false → StringView.find_from c s pos = StringView.npos.
Proof.
  revert pos. induction s as [|a s IH]; intros pos; simpl; [done|].
  intros [Ha Hs]%orb_false_elim. apply bool_decide_eq_false in Ha.
  rewrite decide_False by done. by apply IH.
Qed.

Lemma find_from_present (c : ascii) (s : string) (pos : Z) :
  has_char c s = true →
  pos ≤ StringView.find_from c s pos < pos + StringView.size s.
Proof.
  revert pos. induction s as [|a s IH]; intros pos; simpl; [done|].
  unfold StringView.size. simpl String.length.
  destruct (decide (a = c)) as [->|Hne]; [lia|].
  rewrite bool_decide_eq_false_2 by done. simpl. intros Hs.
  specialize (IH (pos + 1) Hs). unfold StringView.size in IH. lia.
Qed.

Lemma substring_skip (s1 s2 : string) (n m : nat) :
  String.substring (String.length s1 + n) m (s1 +:+ s2) = String.substring n m s2.
Proof. induction s1 as [|a s1 IH]; simpl; [done|]. apply IH. Qed.

Lemma substring_prefix (s1 s2 : string) :
  String.substring 0 (String.length s1) (s1 +:+ s2) = s1.
Proof.
  induction s1 as [|a s1 IH]; simpl.
  - by destruct s2.
  - by rewrite IH.
Qed.

Lemma split_all_piece (sep : ascii) (piece s : string) :
  has_char sep piece = false →
  StringView.split_all sep (piece +:+ s)
  = match StringView.split_all sep s with
    | p :: ps => (piece +:+ p) :: ps
    | [] => [piece]
    end.
Proof.
  induction piece as [|a piece IH]; simpl.
  - intros _. destruct (StringView.split_all sep s) eqn:Hs; [|done].
    exfalso. destruct s as [|b s]; simpl in Hs; [done|].
    destruct (decide (b = sep)); [done|]. by destruct (StringView.split_all sep s).
  - intros [Ha Hp]%orb_false_elim. apply bool_decide_eq_false in Ha.
    rewrite decide_False by done. rewrite IH by done.
    by destruct (StringView.split_all sep s).
Qed.

End StringFacts.

(** A step expression that lacks one of the two brackets has no node and
    predicate, and only such a step expression: [GetNodeAndPredicate] fails
    exactly when the step has no [[] or no []]. *)
Theorem GetNodeAndPredicate_fails_iff (step : string) :
  (StringView.size step < StringView.size_max)%Z →
  GetNodeAndPredicate step = None ↔
  has_char "["%char step = false ∨ has_char "]"%char step = false.
Proof.
  intros Hsize. unfold GetNodeAndPredicate, StringView.find_first_of.
  assert (∀ c, has_char c step = true →
               StringView.find_from c step 0 ≠ StringView.npos) as Hfound.
  { intros c Hc. pose proof (StringFacts.find_from_present c step 0%Z Hc).
    unfold StringView.npos. lia. }
  split.
  - case_decide as Hnpos; [|done]. intros _.
    destruct (has_char "["%char step) eqn:Ho; [|by left].
    destruct (has_char "]"%char step) eqn:Hc; [|by right].
    destruct Hnpos as [Hn|Hn]; exfalso; [exact (Hfound _ Ho Hn)|exact (Hfound _ Hc Hn)].
  - intros Hmiss. rewrite decide_True; [done|].
    destruct Hmiss as [Ho|Hc]; [left|right]; by apply StringFacts.find_from_absent.
Qed.

Lemma GetNodeAndPredicate_fails_iff_witness :
  (StringView.size "Chassis*" < StringView.size_max)%Z ∧
  (GetNodeAndPredicate "Chassis*" = None ↔
   has_char "["%char "Chassis*" = false ∨ has_char "]"%char "Chassis*" = false).
Proof.
  assert (StringView.size "Chassis*" < StringView.size_max)%Z as Hsize
    by (vm_compute; reflexivity).
  split; [exact Hsize|]. exact (GetNodeAndPredicate_fails_iff "Chassis*" Hsize).
Defined.

Lemma parse_bracketed (node predicate rest : string) :
  has_char "["%char node = false →
  has_char "]"%char node = false →
  has_char "]"%char predicate = false →
  (StringView.size (node +:+ "[" +:+ predicate +:+ "]" +:+ rest) < StringView.size_max)%Z →
  GetNodeAndPredicate (node +:+ "[" +:+ predicate +:+ "]" +:+ rest)
  = Some (node, predicate).
Proof.
  intros Hno Hnc Hpc Hsize.
  pose proof (StringFacts.size_nonneg node) as Hn0.
  pose proof (StringFacts.size_nonneg predicate) as Hp0.
  pose proof (StringFacts.size_nonneg rest) as Hr0.
  rewrite !StringFacts.size_append in Hsize.
  change (StringView.size "[") with 1%Z in Hsize.
  change (StringView.size "]") with 1%Z in Hsize.
  unfold GetNodeAndPredicate, StringView.find_first_of.
  assert (StringView.find_from "["%char (node +:+ "[" +:+ predicate +:+ "]" +:+ rest) 0
          = StringView.size node) as ->.
  { rewrite (StringFacts.find_from_skip _ node) by done. simpl. lia. }
  assert (StringView.find_from "]"%char (node +:+ "[" +:+ predicate +:+ "]" +:+ rest) 0
          = (StringView.size node + 1 + StringView.size predicate)%Z) as ->.
  { rewrite (StringFacts.find_from_skip _ node) by done. simpl.
    change (EmptyString +:+ predicate +:+ "]" +:+ rest) with (predicate +:+ "]" +:+ rest).
    rewrite (StringFacts.find_from_skip _ predicate) by done. simpl. lia. }
  rewrite decide_False by (unfold StringView.npos, StringView.size_max in *; lia).
  f_equal. f_equal.
  - unfold StringView.substr. rewrite !StringFacts.size_append.
    change (StringView.size "[") with 1%Z. change (StringView.size "]") with 1%Z.
    rewrite Z.min_l by lia. unfold StringView.size. rewrite Nat2Z.id.
    apply StringFacts.substring_prefix.
  - unfold StringView.substr, StringView.wrap. rewrite !StringFacts.size_append.
    change (StringView.size "[") with 1%Z. change (StringView.size "]") with 1%Z.
    rewrite !Z.mod_small by (unfold StringView.size_max in *; lia).
    rewrite Z.min_l by lia.
    replace (StringView.size node + 1 + StringView.size predicate - StringView.size node - 1)%Z
      with (StringView.size predicate) by lia.
    unfold StringView.size. rewrite Nat2Z.id.
    replace (Z.to_nat (Z.of_nat (String.length node) + 1))
      with (String.length node + 1)%nat by lia.
    rewrite StringFacts.substring_skip. simpl.
    change (EmptyString +:+ predicate +:+ "]" +:+ rest) with (predicate +:+ "]" +:+ rest).
    apply StringFacts.substring_prefix.
Qed.

(** A node name without brackets, followed by a bracketed predicate without
    a closing bracket, is parsed back into that name and that predicate;
    whatever follows the closing bracket is ignored. *)
Theorem GetNodeAndPredicate_bracketed (node predicate rest : string) :
  has_char "["%char node = false →
  has_char "]"%char node = false →
  has_char "]"%char predicate = false →
  (StringView.size (node +:+ "[" +:+ predicate +:+ "]" +:+ rest) < StringView.size_max)%Z →
  GetNodeAndPredicate (node +:+ "[" +:+ predicate +:+ "]" +:+ rest)
  = Some (node, predicate).
Proof. apply parse_bracketed. Qed.

Lemma GetNodeAndPredicate_bracketed_witness :
  has_char "["%char "Chassis" = false ∧
  has_char "]"%char "Chassis" = false ∧
  has_char "]"%char "Name=foo" = false ∧
  (StringView.size ("Chassis" +:+ "[" +:+ "Name=foo" +:+ "]" +:+ "/x") < StringView.size_max)%Z ∧
  GetNodeAndPredicate ("Chassis" +:+ "[" +:+ "Name=foo" +:+ "]" +:+ "/x")
  = Some ("Chassis", "Name=foo").
Proof.
  assert (StringView.size ("Chassis" +:+ "[" +:+ "Name=foo" +:+ "]" +:+ "/x")
          < StringView.size_max)%Z as Hsize by (vm_compute; reflexivity).
  split; [reflexivity|]. split; [reflexivity|]. split; [reflexivity|].
  split; [exact Hsize|].
  exact (GetNodeAndPredicate_bracketed "Chassis" "Name=foo" "/x"
           eq_refl eq_refl eq_refl Hsize).
Defined.

Section Rendering.

Context `{Collaborators}.

Lemma split_all_render (nodes : list string) :
  Forall plain_node nodes →
  StringView.split_all "/"%char (render_redpath nodes)
  = EmptyString :: (render_step <$> nodes).
Proof.
  induction 1 as [|node ns (Hsep & _) _ IH]; [done|].
  cbn [render_redpath foldr]. fold (render_redpath ns).
  change ("/" +:+ node +:+ "[*]" +:+ render_redpath ns)
    with (String "/"%char (node +:+ "[*]" +:+ render_redpath ns)).
  cbn [StringView.split_all]. rewrite decide_True by done. f_equal.
  rewrite (StringFacts.split_all_piece _ node) by done.
  rewrite (StringFacts.split_all_piece _ "[*]") by done.
  rewrite IH. by rewrite fmap_cons.
Qed.

Lemma render_step_not_empty (node : string) :
  negb (String.eqb (render_step node) EmptyString) = true.
Proof. by destruct node. Qed.

Lemma StrSplit_render (nodes : list string) :
  Forall plain_node nodes →
  StringView.StrSplit_SkipEmpty (render_redpath nodes) "/"%char = render_step <$> nodes.
Proof.
  intros Hall. unfold StringView.StrSplit_SkipEmpty. rewrite (split_all_render _ Hall).
  cbn [List.filter String.eqb negb]. clear Hall.
  induction nodes as [|node ns IH]; [done|].
  rewrite fmap_cons. cbn [List.filter]. by rewrite render_step_not_empty, IH.
Qed.

Lemma parse_render_step (node : string) :
  plain_node node → GetNodeAndPredicate (render_step node) = Some (node, kPredicateSelectAll).
Proof.
  intros (_ & Ho & Hc & Hsize).
  apply (parse_bracketed node "*" EmptyString Ho Hc eq_refl).
  rewrite StringFacts.size_append. change (StringView.size _) with 3%Z at 2. lia.
Qed.

Lemma compile_steps_render (nodes : list string) (steps : list Step) :
  Forall plain_node nodes →
  compile_steps (render_step <$> nodes) steps
  = (steps ++ ((fun node => (node, ApplySelectAllFilter)) <$> nodes), true).
Proof.
  intros Hall. revert steps. induction Hall as [|node ns Hnode _ IH]; intros steps.
  - simpl. by rewrite app_nil_r.
  - rewrite !fmap_cons. cbn [compile_steps]. rewrite (parse_render_step node Hnode).
    rewrite decide_True by done. rewrite IH. by rewrite <- List.app_assoc.
Qed.

End Rendering.

(** The constructor of a handle reads a redpath back: for node names
    without separator or bracket, the handle of [/n1[*]/n2[*].../nk[*]] is
    valid, its steps are these names in order, each with the predicate that
    selects everything, and its cursor is on the first of them. *)
Theorem rendered_redpath_compiles `{Collaborators} (sq : Subquery) (nodes : list string) :
  Forall plain_node nodes →
  redpath sq = render_redpath nodes →
  SubqueryHandle_ctor sq
  = {| subquery_ := sq;
       is_redpath_valid_ := true;
       steps_in_redpath_ := (fun node => (node, ApplySelectAllFilter)) <$> nodes;
       iter_ := O |}.
Proof.
  intros Hall Hpath. unfold SubqueryHandle_ctor.
  by rewrite Hpath, (StrSplit_render _ Hall), (compile_steps_render _ _ Hall).
Qed.

Lemma rendered_redpath_compiles_witness :
  Forall plain_node ["Chassis"; "Status"] ∧
  redpath Mockup.state_of_status = render_redpath ["Chassis"; "Status"] ∧
  SubqueryHandle_ctor Mockup.state_of_status
  = {| subquery_ := Mockup.state_of_status;
       is_redpath_valid_ := true;
       steps_in_redpath_ := (fun node => (node, ApplySelectAllFilter)) <$> ["Chassis"; "Status"];
       iter_ := O |}.
Proof.
  assert (Forall plain_node ["Chassis"; "Status"]) as Hall.
  { repeat (apply Forall_cons; split; [repeat split; vm_compute; reflexivity|]).
    constructor. }
  assert (redpath Mockup.state_of_status = render_redpath ["Chassis"; "Status"]) as Hpath
    by reflexivity.
  split; [exact Hall|]. split; [exact Hpath|].
  exact (rendered_redpath_compiles (H := Mockup.collaborators)
           Mockup.state_of_status ["Chassis"; "Status"] Hall Hpath).
Defined.

(** ** The records of one subquery *)

Section SingleHandle.

Context `{Collaborators}.

Lemma outcome_bind_Done {A : Type} (o : outcome A) : (o ≫= Done) = o.
Proof. by destruct o. Qed.

(** A dispatch qualifies the resources the step reaches, one after the
    other. *)
Lemma dispatch_one_members
    (run : RedfishVariant → list SubqueryHandle → ExecState → outcome ExecState)
    (var : RedfishVariant) (node : string) (g : list SubqueryHandle) (st : ExecState) :
  dispatch_one run var (node, g) st
  = for_each (fun member => QualifyEachSubquery run member g)
             (step_members var node) (log (Request var node) st).
Proof.
  unfold step_members. simpl. destruct (AsObject (Get var node)); simpl; [|done].
  destruct (AsIterable (Get var node)) as [collection|]; [done|].
  simpl. by rewrite outcome_bind_Done.
Qed.

Lemma iteration_order_single {A : Type} (entry : string * A) :
  iteration_order [entry] = [entry].
Proof. apply Permutation_singleton_r. by rewrite iteration_order_perm. Qed.

(** With a single handle, a step of the recursion is the dispatch of that
    handle under the node it asks for. *)
Lemma RunRecursive_step_single
    (run : RedfishVariant → list SubqueryHandle → ExecState → outcome ExecState)
    (bound : nat) (var : RedfishVariant) (h : SubqueryHandle) (st : ExecState) :
  active bound h →
  RunRecursive_step run var [h] st = dispatch_one run var (node_of h, [h]) st.
Proof.
  intros Hh. unfold RunRecursive_step.
  rewrite (DeduplicateExpression_grouped bound [h]) by (by constructor).
  cbn [grouped foldl push_back_at mbind outcome_bind]. unfold Dispatch.
  rewrite iteration_order_single. cbn [for_each]. apply outcome_bind_Done.
Qed.

Lemma records_of_foldl_extend (id : string) (st : ExecState) (branches : list ExecState) :
  records_of id (foldl extend st branches)
  = records_of id st ++ List.concat (records_of id <$> branches).
Proof.
  revert st. induction branches as [|d ds IH]; intros st; simpl.
  - by rewrite app_nil_r.
  - rewrite IH, records_of_extend. by rewrite <- List.app_assoc.
Qed.

Lemma records_of_log (id : string) (ev : Event) (st : ExecState) :
  records_of id (log ev st) = records_of id st.
Proof. done. Qed.

Lemma records_of_initial (id : string) : records_of id initial_state = [].
Proof. unfold records_of. simpl. by rewrite lookup_empty. Qed.

Lemma records_of_emit_same (var : RedfishVariant) (h : SubqueryHandle) (st : ExecState) :
  records_of (subquery_id (subquery_ h)) (emit var h st)
  = records_of (subquery_id (subquery_ h)) st
    ++ option_list (Normalize var (subquery_ h)).
Proof.
  unfold emit, GetSubquery. destruct (Normalize var (subquery_ h)); simpl.
  - unfold records_of, with_output, add_data_set. simpl. by rewrite lookup_insert_eq.
  - by rewrite app_nil_r.
Qed.

Lemma omap_concat_map {A B C : Type} (f : B → option C) (g : A → list B) (xs : list A) :
  omap f (List.concat (List.map g xs)) = List.concat (List.map (fun x => omap f (g x)) xs).
Proof.
  induction xs as [|x xs IH]; simpl; [done|]. by rewrite omap_app, IH.
Qed.

Lemma concat_branches (id : string) (R : RedfishVariant → list SubqueryDataSet)
    (P : RedfishVariant → ExecState → Prop)
    (members : list RedfishVariant) (branches : list ExecState) :
  Forall2 P members branches →
  (∀ member d, P member d → records_of id d = R member) →
  List.concat (records_of id <$> branches) = List.concat (List.map R members).
Proof.
  intros Hbr HR. induction Hbr as [|m d ms ds Hmd _ IH]; [done|].
  rewrite fmap_cons. simpl. by rewrite (HR m d Hmd), IH.
Qed.

Lemma single_handle_step (n : nat) (var : RedfishVariant) (h : SubqueryHandle) :
  (∀ member h',
     active n h' → NoDup (steps_in_redpath_ h').*1 →
     Forall (fun step : Step => ∀ v, step.2 v = true) (steps_in_redpath_ h') →
     ∃ d', descend n member [h'] initial_state = Done d' ∧
           records_of (subquery_id (subquery_ h')) d'
           = omap (fun m => Normalize m (subquery_ h'))
                  (redpath_matches (drop (iter_ h') (steps_in_redpath_ h').*1) member)) →
  active (S n) h →
  NoDup (steps_in_redpath_ h).*1 →
  Forall (fun step : Step => ∀ v, step.2 v = true) (steps_in_redpath_ h) →
  ∃ d, RunRecursive_step (descend n) var [h] initial_state = Done d ∧
       records_of (subquery_id (subquery_ h)) d
       = omap (fun member => Normalize member (subquery_ h))
              (redpath_matches (drop (iter_ h) (steps_in_redpath_ h).*1) var).
Proof.
  intros Hdesc Hact Hnd Hacc.
  destruct (deref_in_range h (active_in_range _ _ Hact)) as (step & Hl & _).
  assert ((steps_in_redpath_ h).*1 !! iter_ h = Some (node_of h)) as Hname
    by (unfold node_of; by rewrite list_lookup_fmap, Hl).
  rewrite (drop_S _ _ _ Hname). cbn [redpath_matches]. rewrite omap_concat_map.
  rewrite (RunRecursive_step_single _ _ _ _ _ Hact), dispatch_one_members.
  destruct (members_branches n [h] (step_members var (node_of h))
              (log (Request var (node_of h)) initial_state)
              (Forall_cons_2 _ _ _ Hact (Forall_nil_2 _)))
    as (branches & Hbr & ->).
  eexists. split; [done|].
  rewrite records_of_foldl_extend, records_of_log, records_of_initial. simpl.
  eapply concat_branches; [exact Hbr|].
  intros member d [Hd _].
  rewrite QualifyEachSubquery_closed in Hd
    by (constructor; [by eapply active_in_range|constructor]).
  pose proof (proj1 (Forall_forall _ _) Hacc step
                (list_elem_of_lookup_2 _ _ _ Hl) member) as Hstep.
  destruct (end_of_redpath_iff_last_step h member step Hnd Hl Hstep) as [He Hc].
  unfold survivors, qualified_state, continues in Hd. cbn [List.filter foldl] in Hd.
  destruct (decide (S (iter_ h) = List.length (steps_in_redpath_ h))) as [Hlast|Hnot];
    fold (at_last_step h) in *.
  - apply He in Hlast as Hv. rewrite Hv in Hd. simpl in Hd. injection Hd as <-.
    rewrite records_of_emit_same, records_of_log, records_of_initial.
    unfold at_last_step in Hlast.
    rewrite drop_ge by (rewrite length_fmap; lia).
    simpl. by destruct (Normalize member (subquery_ h)).
  - apply Hc in Hnot as Hv. rewrite Hv in Hd. simpl in Hd.
    assert (active n (advance h)) as Hadv.
    { apply (advance_active n member h Hact). unfold continues. by rewrite Hv. }
    destruct (Hdesc member (advance h) Hadv Hnd Hacc) as (d' & Hd' & Hrec).
    rewrite <- (extend_initial (log _ _)), descend_framed, Hd' in Hd.
    simpl in Hd. injection Hd as <-.
    rewrite records_of_extend, records_of_log, records_of_initial.
    exact Hrec.
Qed.

(** The records a single handle leaves in its bucket are the normalized
    resources that the node names from its cursor on select, when these names
    are distinct and the predicates accept everything. *)
Lemma single_handle_records (n : nat) (var : RedfishVariant) (h : SubqueryHandle) :
  active (S n) h →
  NoDup (steps_in_redpath_ h).*1 →
  Forall (fun step : Step => ∀ v, step.2 v = true) (steps_in_redpath_ h) →
  ∃ d, RunRecursive_at n var [h] initial_state = Done d ∧
       records_of (subquery_id (subquery_ h)) d
       = omap (fun member => Normalize member (subquery_ h))
              (redpath_matches (drop (iter_ h) (steps_in_redpath_ h).*1) var).
Proof.
  revert var h. induction n as [|n IH]; intros var h Hact Hnd Hacc;
    rewrite RunRecursive_at_unfold; apply single_handle_step; try done.
  intros member h' Hh'. by apply active_zero in Hh'.
Qed.

Lemma compile_steps_select_all (step_expressions : list string) (steps : list Step) :
  Forall (fun step : Step => ∀ v, step.2 v = true) steps →
  Forall (fun step : Step => ∀ v, step.2 v = true)
         (compile_steps step_expressions steps).1.
Proof.
  revert steps. induction step_expressions as [|e es IH]; intros steps Hsteps; simpl; [done|].
  destruct (GetNodeAndPredicate e) as [[node predicate]|]; [|done].
  destruct (decide (predicate = kPredicateSelectAll)); [|done].
  apply IH. apply Forall_app. split; [done|]. by repeat constructor.
Qed.

Lemma SubqueryHandle_ctor_select_all (sq : Subquery) :
  Forall (fun step : Step => ∀ v, step.2 v = true)
         (steps_in_redpath_ (SubqueryHandle_ctor sq)).
Proof.
  unfold SubqueryHandle_ctor.
  pose proof (compile_steps_select_all
                (StringView.StrSplit_SkipEmpty (redpath sq) "/"%char) [] (Forall_nil_2 _)).
  by destruct (compile_steps _ _).
Qed.

End SingleHandle.

(** ** A bucket and the handles of other ids *)

Section OtherIds.

Context `{Collaborators}.
Variable id : string.

Lemma records_of_emit_other (var : RedfishVariant) (h : SubqueryHandle) (st : ExecState) :
  has_id id h = false → records_of id (emit var h st) = records_of id st.
Proof.
  intros Hid%bool_decide_eq_false. unfold emit, GetSubquery.
  destruct (Normalize var (subquery_ h)); [|done].
  unfold records_of, with_output, add_data_set. simpl. by rewrite lookup_insert_ne.
Qed.

Lemma records_of_qualified_cons (var : RedfishVariant) (h : SubqueryHandle)
    (g : list SubqueryHandle) :
  records_of id (qualified_state var (h :: g) initial_state)
  = records_of id (qualified_state var [h] initial_state)
    ++ records_of id (qualified_state var g initial_state).
Proof.
  change (h :: g) with ([h] ++ g). rewrite qualified_state_app.
  rewrite <- (extend_initial (qualified_state var [h] initial_state)) at 1.
  by rewrite qualified_state_extend, records_of_extend.
Qed.

Lemma records_of_qualified_filter (var : RedfishVariant) (g : list SubqueryHandle) :
  records_of id (qualified_state var g initial_state)
  = records_of id (qualified_state var (List.filter (has_id id) g) initial_state).
Proof.
  induction g as [|h g IH]; [done|]. rewrite records_of_qualified_cons. simpl.
  destruct (has_id id h) eqn:Hid.
  - by rewrite records_of_qualified_cons, IH.
  - rewrite <- IH. unfold qualified_state at 1. simpl.
    replace (records_of id _) with (@nil SubqueryDataSet); [done|].
    destruct (verdict h var); try (by rewrite records_of_log, records_of_initial).
    by rewrite records_of_emit_other, records_of_log, records_of_initial.
Qed.

Lemma filter_filter_comm {A : Type} (f g : A → bool) (xs : list A) :
  List.filter f (List.filter g xs) = List.filter g (List.filter f xs).
Proof.
  induction xs as [|x xs IH]; [done|]. simpl.
  destruct (f x) eqn:Hf, (g x) eqn:Hg; simpl; rewrite ?Hf, ?Hg; by rewrite ?IH.
Qed.

Lemma filter_has_id_advance (l : list SubqueryHandle) :
  List.filter (has_id id) (advance <$> l) = advance <$> List.filter (has_id id) l.
Proof.
  induction l as [|h l IH]; [done|]. rewrite fmap_cons. cbn [List.filter].
  change (has_id id (advance h)) with (has_id id h).
  destruct (has_id id h); by rewrite ?fmap_cons, IH.
Qed.

Lemma survivors_filter (var : RedfishVariant) (g : list SubqueryHandle) :
  List.filter (has_id id) (survivors var g) = survivors var (List.filter (has_id id) g).
Proof.
  unfold survivors. by rewrite filter_has_id_advance, filter_filter_comm.
Qed.

Lemma filter_nil_Forall {A : Type} (f : A → bool) (xs : list A) :
  List.filter f xs = [] → Forall (fun x => f x = false) xs.
Proof.
  induction xs as [|x xs IH]; simpl; [constructor|].
  destruct (f x) eqn:Hx; [done|]. intros Hnil. constructor; [done|by apply IH].
Qed.

Lemma filter_single_elem {A : Type} (f : A → bool) (xs : list A) (x : A) :
  List.filter f xs = [x] → x ∈ xs ∧ f x = true.
Proof.
  intros Hf. assert (List.In x (List.filter f xs)) as Hin by (rewrite Hf; by left).
  apply List.filter_In in Hin as [Hin Hx]. split; [by apply list_elem_of_In|done].
Qed.

(** The recursion adds nothing to the bucket when none of its handles has
    the id. *)
Lemma descend_other_ids (n : nat) (var : RedfishVariant) (q : list SubqueryHandle) :
  q ≠ [] → Forall (active n) q → List.filter (has_id id) q = [] →
  ∃ d, (∀ st, descend n var q st = Done (extend st d)) ∧ records_of id d = [].
Proof.
  intros Hq Hact Hnone. destruct (descend_appends n var q Hq Hact) as [d Hd].
  exists d. split; [done|].
  destruct n as [|n].
  { destruct q as [|h q]; [done|]. by apply Forall_cons in Hact as [Hh%active_zero _]. }
  pose proof (yield_other_id id n var q Hact) as Hzero.
  simpl in Hd. rewrite Hd in Hzero. simpl in Hzero.
  rewrite record_count_extend, record_count_initial in Hzero.
  apply nil_length_inv. unfold record_count in Hzero. apply Hzero.
  eapply Forall_impl; [exact (filter_nil_Forall _ _ Hnone)|].
  intros h Hh. by apply bool_decide_eq_false in Hh.
Qed.

End OtherIds.

(** ** Loops as lists of branches *)

Section LoopBranches.

Context `{Collaborators}.

Lemma for_each_branches {A : Type} (body : A → ExecState → outcome ExecState)
    (Q : A → ExecState → Prop) (xs : list A) :
  (∀ x, x ∈ xs → ∃ d, (∀ st, body x st = Done (extend st d)) ∧ Q x d) →
  ∃ branches,
    Forall2 Q xs branches ∧
    ∀ st, for_each body xs st = Done (foldl extend st branches).
Proof.
  induction xs as [|x xs IH]; intros Hbody.
  - exists []. by split; [constructor|].
  - destruct (Hbody x) as (d & Hd & HQ); [by left|].
    destruct IH as (ds & Hds & Hloop); [intros y Hy; apply Hbody; by right|].
    exists (d :: ds). split; [by constructor|]. intros st. cbn [for_each].
    rewrite Hd. exact (Hloop (extend st d)).
Qed.

Lemma concat_nils {A B : Type} (R : B → list A) (ds : list B) :
  Forall (fun d => R d = []) ds → List.concat (R <$> ds) = [].
Proof.
  induction 1 as [|d ds Hd _ IH]; [done|]. rewrite fmap_cons. simpl. by rewrite Hd, IH.
Qed.

(** Among branches of entries with distinct keys, all empty but the one of
    a given key, the records are those of that branch. *)
Lemma concat_unique_key {A B : Type} (R : B → list A) (key : string) (X : list A)
    (entries : list (string * list SubqueryHandle)) (ds : list B) :
  NoDup entries.*1 →
  key ∈ entries.*1 →
  Forall2 (fun entry d => R d = if decide (entry.1 = key) then X else []) entries ds →
  List.concat (R <$> ds) = X.
Proof.
  intros Hnd Hkey Hbr. induction Hbr as [|e d es ds Hd Hrest IH]; [by apply elem_of_nil in Hkey|].
  rewrite fmap_cons in Hnd, Hkey. apply NoDup_cons in Hnd as [Hnotin Hnd].
  rewrite fmap_cons. simpl. rewrite Hd.
  destruct (decide (e.1 = key)) as [Heq|Hne].
  - rewrite concat_nils; [by rewrite app_nil_r|]. subst key. clear -Hnotin Hrest.
    induction Hrest as [|e' d' es ds Hd' _ IH]; [constructor|].
    rewrite fmap_cons in Hnotin. apply not_elem_of_cons in Hnotin as [Hne Hnotin].
    constructor; [|by apply IH]. rewrite Hd'. by rewrite decide_False.
  - simpl. apply IH; [done|]. apply elem_of_cons in Hkey as [->|Hkey]; done.
Qed.

Lemma push_back_at_NoDup (node : string) (h : SubqueryHandle) (m : NodeToSubqueryHandles) :
  NoDup m.*1 → NoDup (push_back_at node h m).*1.
Proof.
  intros Hnd. rewrite push_back_at_keys. case_decide as Hin; [by rewrite app_nil_r|].
  apply NoDup_app. repeat split; [done| |apply NoDup_singleton].
  intros x Hx ->%list_elem_of_singleton. done.
Qed.

Lemma filter_asks_for_snoc (node : string) (seen : list SubqueryHandle) (h : SubqueryHandle) :
  List.filter (asks_for node) (seen ++ [h])
  = List.filter (asks_for node) seen ++ (if asks_for node h then [h] else []).
Proof. rewrite List.filter_app. simpl. by destruct (asks_for node h). Qed.

Lemma asks_for_self (h : SubqueryHandle) : asks_for (node_of h) h = true.
Proof. unfold asks_for. by apply bool_decide_eq_true_2. Qed.

Lemma asks_for_other (node : string) (h : SubqueryHandle) :
  node ≠ node_of h → asks_for node h = false.
Proof. intros Hne. unfold asks_for. apply bool_decide_eq_false_2. congruence. Qed.

Lemma push_back_at_groups (h : SubqueryHandle) (seen : list SubqueryHandle)
    (m : NodeToSubqueryHandles) :
  NoDup m.*1 →
  Forall (fun entry => entry.2 = List.filter (asks_for entry.1) seen) m →
  (node_of h ∉ m.*1 → List.filter (asks_for (node_of h)) seen = []) →
  Forall (fun entry => entry.2 = List.filter (asks_for entry.1) (seen ++ [h]))
         (push_back_at (node_of h) h m).
Proof.
  induction m as [|[key g] m IH]; intros Hnd Hm Hfresh.
  - cbn [push_back_at]. repeat constructor. cbn [fst snd].
    rewrite filter_asks_for_snoc, Hfresh by apply not_elem_of_nil.
    by rewrite asks_for_self.
  - rewrite fmap_cons in Hnd. apply NoDup_cons in Hnd as [Hnotin Hnd].
    apply Forall_cons in Hm as [Hg Hm]. cbn [fst snd] in *. cbn [push_back_at].
    destruct (decide (key = node_of h)) as [Heq|Hne].
    + constructor.
      * cbn [fst snd]. rewrite filter_asks_for_snoc, <- Hg, Heq.
        by rewrite asks_for_self.
      * apply Forall_forall. intros [k g'] Hk.
        pose proof (proj1 (Forall_forall _ _) Hm _ Hk) as Hg'. cbn [fst snd] in *.
        rewrite filter_asks_for_snoc, <- Hg'.
        rewrite asks_for_other; [by rewrite app_nil_r|].
        intros Hkh. apply Hnotin. rewrite Heq, <- Hkh.
        by apply (list_elem_of_fmap_2 fst) in Hk.
    + constructor.
      * cbn [fst snd]. rewrite filter_asks_for_snoc, <- Hg.
        rewrite asks_for_other by done. by rewrite app_nil_r.
      * apply IH; [done..|]. intros Hnot. apply Hfresh.
        rewrite fmap_cons. cbn [fst]. apply not_elem_of_cons. split; [congruence|done].
Qed.

(** Every group holds the handles that ask for its node, in their order. *)
Lemma grouped_groups_acc (handles seen : list SubqueryHandle) (m : NodeToSubqueryHandles) :
  NoDup m.*1 →
  Forall (fun entry => entry.2 = List.filter (asks_for entry.1) seen) m →
  (∀ node, node ∉ m.*1 → List.filter (asks_for node) seen = []) →
  Forall (fun entry => entry.2 = List.filter (asks_for entry.1) (seen ++ handles))
         (grouped handles m).
Proof.
  revert seen m. induction handles as [|h hs IH]; intros seen m Hnd Hm Hfresh.
  - simpl. by rewrite app_nil_r.
  - cbn [grouped foldl]. fold (grouped hs (push_back_at (node_of h) h m)).
    replace (seen ++ h :: hs) with ((seen ++ [h]) ++ hs) by (by rewrite <- List.app_assoc).
    apply IH.
    + by apply push_back_at_NoDup.
    + apply push_back_at_groups; [done..|apply Hfresh].
    + intros node Hnode. rewrite push_back_at_keys in Hnode.
      rewrite filter_asks_for_snoc.
      assert ((node ∉ m.*1) ∧ node ≠ node_of h) as [Hm' Hne].
      { case_decide as Hin.
        - rewrite app_nil_r in Hnode. split; [done|]. by intros ->.
        - apply not_elem_of_app in Hnode as [? Hs]. split; [done|].
          intros ->. apply Hs. by left. }
      by rewrite (Hfresh node Hm'), asks_for_other.
Qed.

Lemma grouped_groups (handles : list SubqueryHandle) :
  Forall (fun entry => entry.2 = List.filter (asks_for entry.1) handles)
         (grouped handles []).
Proof. apply (grouped_groups_acc handles [] []); by constructor. Qed.

End LoopBranches.

(** ** The bucket of an id that one handle has *)

Section UniqueBucket.

Context `{Collaborators}.

Variable id : string.

#[local] Abbreviation follows_own_handle n :=
  (∀ var q h,
     Forall (active n) q → List.filter (has_id id) q = [h] →
     records_of id (final_state (descend n var q initial_state))
     = records_of id (final_state (descend n var [h] initial_state))).

Lemma records_of_descend (n : nat) (var : RedfishVariant) (q : list SubqueryHandle)
    (st : ExecState) :
  q ≠ [] → Forall (active n) q →
  records_of id (final_state (descend n var q st))
  = records_of id st ++ records_of id (final_state (descend n var q initial_state)).
Proof.
  intros Hq Hact. destruct (descend_appends n var q Hq Hact) as [d Hd].
  rewrite !Hd. cbn [final_state]. by rewrite !records_of_extend, records_of_initial.
Qed.

Lemma survivors_single (var : RedfishVariant) (h : SubqueryHandle) :
  survivors var [h] = if continues var h then [advance h] else [].
Proof. unfold survivors. simpl. by destruct (continues var h). Qed.

Lemma qualify_other_ids (n : nat) (var : RedfishVariant) (g : list SubqueryHandle) :
  Forall (active (S n)) g → List.filter (has_id id) g = [] →
  records_of id (final_state (QualifyEachSubquery (descend n) var g initial_state)) = [].
Proof.
  intros Hact Hnone.
  assert (Forall in_range g) as Hr
    by (eapply Forall_impl; [exact Hact|intros ?; apply active_in_range]).
  rewrite (QualifyEachSubquery_closed _ _ g _ Hr).
  pose proof (survivors_active n var g Hact) as Hs.
  pose proof (survivors_filter id var g) as Hf. rewrite Hnone in Hf.
  pose proof (records_of_qualified_filter id var g) as Hq0. rewrite Hnone in Hq0.
  remember (survivors var g) as q eqn:Hq. destruct q as [|x q].
  - cbn [final_state]. by rewrite Hq0.
  - rewrite records_of_descend by done. rewrite Hq0. cbn [qualified_state foldl].
    rewrite records_of_initial. cbn [app].
    destruct (descend_other_ids id n var (x :: q)) as (d & Hd & Hnil); [done..|].
    rewrite Hd. cbn [final_state]. by rewrite records_of_extend, records_of_initial, Hnil.
Qed.

Lemma qualify_own_handle (n : nat) (var : RedfishVariant) (g : list SubqueryHandle)
    (h : SubqueryHandle) :
  follows_own_handle n →
  Forall (active (S n)) g → List.filter (has_id id) g = [h] →
  records_of id (final_state (QualifyEachSubquery (descend n) var g initial_state))
  = records_of id (final_state (QualifyEachSubquery (descend n) var [h] initial_state)).
Proof.
  intros IH Hact Hone.
  destruct (filter_single_elem _ _ _ Hone) as [Hin _].
  assert (active (S n) h) as Hh by (by apply (proj1 (Forall_forall _ _) Hact)).
  assert (Forall in_range g) as Hr
    by (eapply Forall_impl; [exact Hact|intros ?; apply active_in_range]).
  assert (Forall in_range [h]) as Hr1
    by (constructor; [by eapply active_in_range|constructor]).
  rewrite (QualifyEachSubquery_closed _ _ g _ Hr), (QualifyEachSubquery_closed _ _ [h] _ Hr1).
  pose proof (survivors_active n var g Hact) as Hs.
  assert (Forall (active n) (survivors var [h])) as Hs1
    by (apply survivors_active; by constructor).
  pose proof (survivors_filter id var g) as Hf. rewrite Hone in Hf.
  pose proof (records_of_qualified_filter id var g) as Hq0. rewrite Hone in Hq0.
  rewrite survivors_single in Hf, Hs1 |- *.
  remember (survivors var g) as q eqn:Hq.
  destruct (continues var h).
  - destruct q as [|x q]; [done|].
    rewrite (records_of_descend n var (x :: q)) by done.
    rewrite (records_of_descend n var [advance h]) by done.
    rewrite Hq0. f_equal. by apply IH.
  - cbn [final_state]. destruct q as [|x q]; [by cbn [final_state]|].
    rewrite records_of_descend by done. rewrite Hq0.
    destruct (descend_other_ids id n var (x :: q)) as (d & Hd & Hnil); [done..|].
    rewrite Hd. cbn [final_state].
    by rewrite records_of_extend, records_of_initial, Hnil, app_nil_r.
Qed.

(** What a dispatch leaves in the bucket is what the qualification leaves
    there for each resource the step reaches, in their order. *)
Lemma dispatch_one_records (n : nat) (var : RedfishVariant) (node : string)
    (g : list SubqueryHandle) :
  Forall (active (S n)) g →
  records_of id (final_state (dispatch_one (descend n) var (node, g) initial_state))
  = List.concat
      (List.map (fun member =>
                   records_of id
                     (final_state (QualifyEachSubquery (descend n) member g initial_state)))
                (step_members var node)).
Proof.
  intros Hact. rewrite dispatch_one_members.
  destruct (members_branches n g (step_members var node)
              (log (Request var node) initial_state) Hact) as (branches & Hbr & Hloop).
  rewrite Hloop. cbn [final_state].
  rewrite records_of_foldl_extend, records_of_log, records_of_initial. cbn [app].
  apply (concat_branches id _ _ _ _ Hbr). intros member d [Hd _]. by rewrite Hd.
Qed.

Lemma dispatch_other_ids (n : nat) (var : RedfishVariant) (node : string)
    (g : list SubqueryHandle) :
  Forall (active (S n)) g → List.filter (has_id id) g = [] →
  records_of id (final_state (dispatch_one (descend n) var (node, g) initial_state)) = [].
Proof.
  intros Hact Hnone. rewrite dispatch_one_records by done.
  induction (step_members var node) as [|member members IH]; [done|].
  simpl. by rewrite qualify_other_ids, IH.
Qed.

Lemma dispatch_own_handle (n : nat) (var : RedfishVariant) (node : string)
    (g : list SubqueryHandle) (h : SubqueryHandle) :
  follows_own_handle n →
  Forall (active (S n)) g → List.filter (has_id id) g = [h] →
  records_of id (final_state (dispatch_one (descend n) var (node, g) initial_state))
  = records_of id (final_state (dispatch_one (descend n) var (node, [h]) initial_state)).
Proof.
  intros IH Hact Hone.
  destruct (filter_single_elem _ _ _ Hone) as [Hin _].
  assert (active (S n) h) as Hh by (by apply (proj1 (Forall_forall _ _) Hact)).
  rewrite !dispatch_one_records by (done || by constructor).
  f_equal. apply List.map_ext. intros member. by apply qualify_own_handle.
Qed.

Lemma filter_active (n : nat) (f : SubqueryHandle → bool) (q : list SubqueryHandle) :
  Forall (active n) q → Forall (active n) (List.filter f q).
Proof.
  intros Hact. apply Forall_forall. intros x Hx%list_elem_of_In.
  apply List.filter_In in Hx as [Hx%list_elem_of_In _].
  by apply (proj1 (Forall_forall _ _) Hact).
Qed.

(** Whatever handles of other ids run beside it, the bucket of [id] gets
    what the one handle with that id gives when it runs alone. *)
Lemma descend_own_handle (n : nat) : follows_own_handle n.
Proof.
  induction n as [|n IH]; intros var q h Hact Hone;
    destruct (filter_single_elem _ _ _ Hone) as [Hin Hid];
    pose proof (proj1 (Forall_forall _ _) Hact h Hin) as Hh.
  { by apply active_zero in Hh. }
  cbn [descend]. rewrite !RunRecursive_at_unfold.
  rewrite (RunRecursive_step_single _ (S n) var h _ Hh).
  unfold RunRecursive_step. rewrite (DeduplicateExpression_grouped (S n) q Hact).
  cbn [mbind outcome_bind].
  destruct (grouped_keys q [] (NoDup_nil_2 : NoDup ([] : NodeToSubqueryHandles).*1))
    as [Hnd Hkeys].
  assert (node_of h ∈ (grouped q []).*1) as Hkey
    by (apply Hkeys; right; by apply list_elem_of_fmap_2).
  pose proof (grouped_groups q) as Hgroups.
  remember (grouped q []) as m eqn:Hm.
  assert (Dispatch (descend n) var m initial_state
          = match m with
            | [] => mret initial_state
            | _ => Dispatch (descend n) var m initial_state
            end) as <-.
  { destruct m; [by apply elem_of_nil in Hkey|done]. }
  unfold Dispatch.
  pose proof (iteration_order_perm _ m) as Hperm.
  set (X := records_of id
              (final_state (dispatch_one (descend n) var (node_of h, [h]) initial_state))).
  destruct (for_each_branches (dispatch_one (descend n) var)
              (fun entry d => records_of id d = if decide (entry.1 = node_of h) then X else [])
              (iteration_order m)) as (ds & Hds & Hloop).
  { intros [k g] Hkg. rewrite Hperm in Hkg.
    pose proof (proj1 (Forall_forall _ _) Hgroups _ Hkg) as Hg. cbn [fst snd] in Hg.
    assert (Forall (active (S n)) g) as Hgact by (rewrite Hg; by apply filter_active).
    destruct (dispatch_one_appends n var (k, g) Hgact) as [d Hd].
    exists d. split; [done|]. cbn [fst].
    assert (records_of id d
            = records_of id
                (final_state (dispatch_one (descend n) var (k, g) initial_state))) as ->.
    { rewrite Hd. cbn [final_state]. by rewrite records_of_extend, records_of_initial. }
    assert (List.filter (has_id id) g = if asks_for k h then [h] else []) as Hfg.
    { rewrite Hg, filter_filter_comm, Hone. simpl. by destruct (asks_for k h). }
    destruct (decide (k = node_of h)) as [->|Hne].
    - rewrite asks_for_self in Hfg. by apply dispatch_own_handle.
    - rewrite asks_for_other in Hfg by done. by apply dispatch_other_ids. }
  rewrite Hloop. cbn [final_state]. rewrite records_of_foldl_extend, records_of_initial.
  cbn [app].
  apply (concat_unique_key (records_of id) (node_of h) X (iteration_order m) ds);
    [by rewrite Hperm|by rewrite Hperm|exact Hds].
Qed.

End UniqueBucket.

(** ** The bucket of a subquery whose id no other subquery has *)

Section OwnBucket.

Context `{Collaborators}.

Lemma records_of_yield_zero (id : string) (o : outcome ExecState) :
  yield id o = O → records_of id (final_state o) = [].
Proof.
  destruct o as [d| |]; simpl; intros Hy; [by apply nil_length_inv|apply records_of_initial..].
Qed.

Lemma RunRecursive_other_ids (id : string) (var : RedfishVariant)
    (q : list SubqueryHandle) :
  Forall (fun h => is_redpath_valid_ h = true ∧ in_range h) q →
  List.filter (has_id id) q = [] →
  records_of id (final_state (RunRecursive var q initial_state)) = [].
Proof.
  intros Hall Hnone. apply records_of_yield_zero. unfold RunRecursive.
  apply yield_other_id; [by apply active_depth|].
  eapply Forall_impl; [exact (filter_nil_Forall _ _ Hnone)|].
  intros h Hh. by apply bool_decide_eq_false in Hh.
Qed.

Lemma RunRecursive_own_handle (id : string) (var : RedfishVariant)
    (q : list SubqueryHandle) (h : SubqueryHandle) :
  Forall (fun h => is_redpath_valid_ h = true ∧ in_range h) q →
  List.filter (has_id id) q = [h] →
  records_of id (final_state (RunRecursive var q initial_state))
  = records_of id (final_state (RunRecursive var [h] initial_state)).
Proof.
  intros Hall Hone. destruct (filter_single_elem _ _ _ Hone) as [Hin _].
  unfold RunRecursive.
  pose proof (active_depth q Hall) as Hq.
  assert (Forall (active (S (redpath_depth [h]))) [h]) as Hh.
  { apply active_depth. constructor; [|constructor].
    by apply (proj1 (Forall_forall _ _) Hall). }
  rewrite (RunRecursive_at_fuel (redpath_depth [h]) (redpath_depth q) var [h]); [|  |done].
  - exact (descend_own_handle id (S (redpath_depth q)) var q h Hq Hone).
  - pose proof (steps_ahead_le_depth q h Hin).
    unfold redpath_depth at 1. simpl. lia.
Qed.

(** The buckets a run ends with are those of the walk over the valid
    handles. *)
Lemma execute_records (id : string) (query : DelliciusQuery) (variant : RedfishVariant)
    (clock : Clock) :
  Forall has_steps (subquery query) →
  ∃ st clock',
    execute query variant clock = Done (st, clock') ∧
    records_of id st
    = records_of id
        (final_state
           (RunRecursive variant
              (List.filter is_redpath_valid_ (SubqueryHandle_ctor <$> subquery query))
              initial_state)).
Proof.
  intros Hsteps.
  assert (Forall readable (subquery query)) as Hall.
  { eapply Forall_impl; [exact Hsteps|]. intros sq. apply readable_has_steps. }
  unfold execute. rewrite (QueryPlanner_ctor_complete query Hall). simpl.
  pose proof (valid_handles_in_range _ Hall) as Hrange.
  destruct (Run_Done {| plan_id_ := query_id query;
                        subquery_handles_ :=
                          List.filter is_redpath_valid_ (SubqueryHandle_ctor <$> subquery query) |}
              variant clock Hrange)
    as (d & Hd & _ & st & clock' & HRun & _ & Hout & _).
  exists st, clock'. split; [done|]. simpl in Hd. rewrite Hd. cbn [final_state].
  unfold records_of. by rewrite Hout.
Qed.

Lemma filter_has_id_ctor (id : string) (subqueries : list Subquery) :
  Forall (fun other => subquery_id other ≠ id) subqueries →
  List.filter (has_id id) (SubqueryHandle_ctor <$> subqueries) = [].
Proof.
  induction 1 as [|other others Hne _ IH]; [done|]. rewrite fmap_cons. cbn [List.filter].
  unfold has_id at 1. rewrite SubqueryHandle_ctor_subquery.
  by rewrite bool_decide_eq_false_2.
Qed.

(** Among the valid handles of a query, the handles with the id of a
    subquery that alone has it: the handle of that subquery, if valid. *)
Lemma own_handle_of_query (before after : list Subquery) (sq : Subquery) :
  Forall (fun other => subquery_id other ≠ subquery_id sq) (before ++ after) →
  List.filter (has_id (subquery_id sq))
    (List.filter is_redpath_valid_ (SubqueryHandle_ctor <$> (before ++ sq :: after)))
  = List.filter is_redpath_valid_ (SubqueryHandle_ctor <$> [sq]).
Proof.
  intros [Hb Ha]%Forall_app. rewrite filter_filter_comm. f_equal.
  rewrite fmap_app, List.filter_app, fmap_cons. cbn [List.filter].
  rewrite !filter_has_id_ctor by done.
  unfold has_id. rewrite SubqueryHandle_ctor_subquery.
  by rewrite bool_decide_eq_true_2.
Qed.

End OwnBucket.

(** A subquery whose id no other subquery of the query has gets in its
    bucket exactly the records it gets when the query holds nothing else:
    the subqueries before and after it, valid or not, sharing steps with it
    or not, add no record to the bucket, remove none and do not reorder it.
    Both runs complete when no redpath is without a step. *)
Theorem bucket_of_unique_id `{Collaborators} (query : DelliciusQuery)
    (before after : list Subquery) (sq : Subquery)
    (variant : RedfishVariant) (clock : Clock) :
  subquery query = before ++ sq :: after →
  Forall (fun other => subquery_id other ≠ subquery_id sq) (before ++ after) →
  Forall has_steps (subquery query) →
  ∃ st clock' alone clock'',
    execute query variant clock = Done (st, clock') ∧
    execute {| query_id := query_id query; subquery := [sq] |} variant clock
    = Done (alone, clock'') ∧
    records_of (subquery_id sq) st = records_of (subquery_id sq) alone.
Proof.
  intros Hquery Hothers Hsteps.
  assert (Forall has_steps [sq]) as Hsq.
  { rewrite Hquery in Hsteps. apply Forall_app in Hsteps as [_ Hsteps].
    apply Forall_cons in Hsteps as [Hsq _]. by constructor. }
  destruct (execute_records (subquery_id sq) query variant clock Hsteps)
    as (st & clock' & Hexec & Hst).
  destruct (execute_records (subquery_id sq)
              {| query_id := query_id query; subquery := [sq] |} variant clock Hsq)
    as (alone & clock'' & Hexec1 & Halone).
  exists st, clock', alone, clock''. split; [done|]. split; [done|].
  rewrite Hst, Halone. cbn [subquery]. rewrite Hquery.
  pose proof (own_handle_of_query before after sq Hothers) as Hown.
  assert (Forall readable (before ++ sq :: after)) as Hall.
  { rewrite <- Hquery. eapply Forall_impl; [exact Hsteps|].
    intros s. apply readable_has_steps. }
  pose proof (valid_handles_in_range _ Hall) as Hrange.
  assert (Forall readable [sq]) as Hall1.
  { eapply Forall_impl; [exact Hsq|]. intros s. apply readable_has_steps. }
  pose proof (valid_handles_in_range _ Hall1) as Hrange1.
  remember (List.filter is_redpath_valid_ (SubqueryHandle_ctor <$> [sq])) as own eqn:Heq.
  assert (own = [] ∨ own = [SubqueryHandle_ctor sq]) as [->| ->].
  { subst own. rewrite fmap_cons. cbn [List.filter fmap list_fmap].
    destruct (is_redpath_valid_ (SubqueryHandle_ctor sq)); [by right|by left]. }
  - rewrite (RunRecursive_other_ids _ _ _ Hrange Hown).
    symmetry. by apply RunRecursive_other_ids.
  - by apply RunRecursive_own_handle.
Qed.

Lemma bucket_of_unique_id_witness :
  let query := Mockup.query_of [Mockup.state_of_status; Mockup.name_of_chassis;
                                Mockup.missing_brackets] in
  subquery query = [Mockup.state_of_status] ++ Mockup.name_of_chassis
                   :: [Mockup.missing_brackets] ∧
  Forall (fun other => subquery_id other ≠ subquery_id Mockup.name_of_chassis)
         ([Mockup.state_of_status] ++ [Mockup.missing_brackets]) ∧
  Forall has_steps (subquery query) ∧
  ∃ st clock' alone clock'',
    execute query Mockup.two_chassis_root 5%nat = Done (st, clock') ∧
    execute {| query_id := query_id query; subquery := [Mockup.name_of_chassis] |}
            Mockup.two_chassis_root 5%nat
    = Done (alone, clock'') ∧
    records_of (subquery_id Mockup.name_of_chassis) st
    = records_of (subquery_id Mockup.name_of_chassis) alone.
Proof.
  intros query.
  assert (subquery query = [Mockup.state_of_status] ++ Mockup.name_of_chassis
                           :: [Mockup.missing_brackets]) as Hquery by reflexivity.
  assert (Forall (fun other => subquery_id other ≠ subquery_id Mockup.name_of_chassis)
                 ([Mockup.state_of_status] ++ [Mockup.missing_brackets])) as Hothers.
  { apply Forall_cons. split; [cbv; discriminate|].
    apply Forall_cons. split; [cbv; discriminate|]. apply Forall_nil_2. }
  assert (Forall has_steps (subquery query)) as Hsteps.
  { apply Forall_cons. split; [vm_compute; discriminate|].
    apply Forall_cons. split; [vm_compute; discriminate|].
    apply Forall_cons. split; [vm_compute; discriminate|]. apply Forall_nil_2. }
  split; [exact Hquery|]. split; [exact Hothers|]. split; [exact Hsteps|].
  exact (bucket_of_unique_id (H := Mockup.collaborators) query
           [Mockup.state_of_status] [Mockup.missing_brackets] Mockup.name_of_chassis
           Mockup.two_chassis_root 5%nat Hquery Hothers Hsteps).
Defined.

(** When the node names of a valid redpath are pairwise distinct and no
    other subquery of the query has the id of its subquery, the run leaves
    in the bucket of that id exactly the records the normalizer gives for the
    resources the redpath selects from the root: step by step, every member
    of a child that is a collection, the child itself when it is an object
    only, nothing when it is no object; in the order of the members, and
    without the resources the normalizer rejects. *)
Theorem bucket_holds_the_redpath_matches `{Collaborators} (query : DelliciusQuery)
    (before after : list Subquery) (sq : Subquery)
    (variant : RedfishVariant) (clock : Clock) :
  subquery query = before ++ sq :: after →
  Forall (fun other => subquery_id other ≠ subquery_id sq) (before ++ after) →
  Forall has_steps (subquery query) →
  is_redpath_valid_ (SubqueryHandle_ctor sq) = true →
  NoDup (steps_in_redpath_ (SubqueryHandle_ctor sq)).*1 →
  ∃ st clock',
    execute query variant clock = Done (st, clock') ∧
    records_of (subquery_id sq) st
    = omap (fun member => Normalize member sq)
           (redpath_matches (steps_in_redpath_ (SubqueryHandle_ctor sq)).*1 variant).
Proof.
  intros Hquery Hothers Hsteps Hvalid Hnames.
  destruct (execute_records (subquery_id sq) query variant clock Hsteps)
    as (st & clock' & Hexec & Hst).
  exists st, clock'. split; [done|]. rewrite Hst, Hquery.
  pose proof (own_handle_of_query before after sq Hothers) as Hown.
  rewrite fmap_cons in Hown. cbn [List.filter fmap list_fmap] in Hown.
  rewrite Hvalid in Hown.
  assert (Forall readable (before ++ sq :: after)) as Hall.
  { rewrite <- Hquery. eapply Forall_impl; [exact Hsteps|].
    intros s. apply readable_has_steps. }
  pose proof (valid_handles_in_range _ Hall) as Hrange.
  rewrite (RunRecursive_own_handle _ _ _ _ Hrange Hown).
  assert (Forall (fun h => is_redpath_valid_ h = true ∧ in_range h)
                 [SubqueryHandle_ctor sq]) as Hrange1.
  { destruct (filter_single_elem _ _ _ Hown) as [Hin _].
    constructor; [|constructor]. by apply (proj1 (Forall_forall _ _) Hrange). }
  pose proof (active_depth _ Hrange1) as Hact. apply Forall_cons in Hact as [Hact _].
  destruct (single_handle_records _ variant _ Hact Hnames
              (SubqueryHandle_ctor_select_all sq)) as (d & Hd & Hrecords).
  unfold RunRecursive. rewrite Hd. cbn [final_state].
  rewrite SubqueryHandle_ctor_subquery, SubqueryHandle_ctor_iter in Hrecords.
  by rewrite Hrecords.
Qed.

Lemma bucket_holds_the_redpath_matches_witness :
  let query := Mockup.query_of [Mockup.name_of_chassis; Mockup.state_of_status;
                                Mockup.chassis_of_links] in
  subquery query = [Mockup.name_of_chassis] ++ Mockup.state_of_status
                   :: [Mockup.chassis_of_links] ∧
  Forall (fun other => subquery_id other ≠ subquery_id Mockup.state_of_status)
         ([Mockup.name_of_chassis] ++ [Mockup.chassis_of_links]) ∧
  Forall has_steps (subquery query) ∧
  is_redpath_valid_ (SubqueryHandle_ctor Mockup.state_of_status) = true ∧
  NoDup (steps_in_redpath_ (SubqueryHandle_ctor Mockup.state_of_status)).*1 ∧
  ∃ st clock',
    execute query Mockup.two_chassis_root 5%nat = Done (st, clock') ∧
    records_of (subquery_id Mockup.state_of_status) st
    = omap (fun member => Normalize member Mockup.state_of_status)
           (redpath_matches
              (steps_in_redpath_ (SubqueryHandle_ctor Mockup.state_of_status)).*1
              Mockup.two_chassis_root).
Proof.
  intros query.
  assert (subquery query = [Mockup.name_of_chassis] ++ Mockup.state_of_status
                           :: [Mockup.chassis_of_links]) as Hquery by reflexivity.
  assert (Forall (fun other => subquery_id other ≠ subquery_id Mockup.state_of_status)
                 ([Mockup.name_of_chassis] ++ [Mockup.chassis_of_links])) as Hothers.
  { apply Forall_cons. split; [cbv; discriminate|].
    apply Forall_cons. split; [cbv; discriminate|]. apply Forall_nil_2. }
  assert (Forall has_steps (subquery query)) as Hsteps.
  { apply Forall_cons. split; [vm_compute; discriminate|].
    apply Forall_cons. split; [vm_compute; discriminate|].
    apply Forall_cons. split; [vm_compute; discriminate|]. apply Forall_nil_2. }
  assert (is_redpath_valid_ (SubqueryHandle_ctor Mockup.state_of_status) = true)
    as Hvalid by (vm_compute; reflexivity).
  assert (NoDup (steps_in_redpath_ (SubqueryHandle_ctor Mockup.state_of_status)).*1)
    as Hnames.
  { apply (bool_decide_unpack _). vm_compute. exact I. }
  split; [exact Hquery|]. split; [exact Hothers|]. split; [exact Hsteps|].
  split; [exact Hvalid|]. split; [exact Hnames|].
  exact (bucket_holds_the_redpath_matches (H := Mockup.collaborators) query
           [Mockup.name_of_chassis] [Mockup.chassis_of_links] Mockup.state_of_status
           Mockup.two_chassis_root 5%nat Hquery Hothers Hsteps Hvalid Hnames).
Defined.
